(** * render_ply: a shallow embedding of [scripts/render_ply.py]

    The renderer decodes Gaussian splats, frames them in a viewport,
    projects them to pixels, orders them by depth and composites them
    front to back.

    Numbers.  The script computes in IEEE floating point; this development
    idealises every float as an exact rational ([Q]), so casts between
    float widths are the identity and no rounding, infinity or NaN occurs
    (an overflowing [np.exp], or the product [inf * 0], is outside the
    model).
    Integers ([np.int32], Python [int]) are [Z].  The NumPy entry points
    that are not rational functions ([np.exp], [np.cos], [np.sin],
    [np.radians], [np.argsort]) are fields of a record [NumPy]; the
    properties below state which laws of them they rely on. *)

From Stdlib Require Import QArith ZArith List Bool Lia Lqa Qround.
From Stdlib Require Import Permutation Sorted Morphisms.
From Stdlib Require String.
Import ListNotations.

Open Scope Q_scope.

(** ** Scalar helpers *)

(** [a > b] on floats, as a boolean. *)
Definition Qgtb (a b : Q) : bool := if Qlt_le_dec b a then true else false.

Definition Qmaximum (a b : Q) : Q := if Qlt_le_dec a b then b else a.
Definition Qminimum (a b : Q) : Q := if Qlt_le_dec b a then b else a.

(** [np.clip(x, lo, hi)] is [minimum(hi, maximum(x, lo))]. *)
Definition clip (x lo hi : Q) : Q := Qminimum (Qmaximum x lo) hi.

(** [.astype(np.int32)] and [.astype(np.uint8)] on an in-range float:
    truncation toward zero. *)
Definition astype_int (q : Q) : Z := Z.quot (Qnum q) (Zpos (Qden q)).

(** A boolean mask used as a number ([effective * update_mask]). *)
Definition mask_val (b : bool) : Q := if b then 1 else 0.

(** [np.sort] on a one-dimensional array: ascending order. *)
Fixpoint insert_asc (x : Q) (l : list Q) : list Q :=
  match l with
  | [] => [x]
  | y :: l' => if Qlt_le_dec y x then y :: insert_asc x l' else x :: l
  end.

Definition np_sort (l : list Q) : list Q := fold_right insert_asc [] l.

Definition Qsum (l : list Q) : Q := fold_right Qplus 0 l.

(** ** The NumPy functions taken as parameters *)

Record NumPy := {
  np_exp : Q -> Q;
  np_cos : Q -> Q;
  np_sin : Q -> Q;
  np_radians : Q -> Q;
  (** [np.argsort(z)] with the default [kind]: indices that sort [z]. *)
  np_argsort : list Q -> list nat;
  (** Whether [np.percentile] raises on an empty array rather than
      returning NaN; this depends on the NumPy release and is left open. *)
  np_percentile_empty_raises : bool
}.

(** What the properties need of [np.exp]. *)
Record exp_laws (np : NumPy) : Prop := {
  exp_nonneg : forall x, 0 <= np_exp np x;
  exp_le_1 : forall x, x <= 0 -> np_exp np x <= 1
}.

(** ** Data *)

(** One row of [ply["vertex"]]. *)
Record Vertex := {
  v_x : Q; v_y : Q; v_z : Q;
  v_f_dc_0 : Q; v_f_dc_1 : Q; v_f_dc_2 : Q;
  v_opacity : Q;
  v_scale_0 : Q; v_scale_1 : Q; v_scale_2 : Q
}.

(** One row of the parallel arrays [pts], [colors], [opacity],
    [splat_radius]. *)
Record Splat := {
  pts : Q * Q * Q;
  colors : Q * Q * Q;
  opacity : Q;
  splat_radius : Q
}.

Definition pt_x (s : Splat) : Q := fst (fst (pts s)).
Definition pt_y (s : Splat) : Q := snd (fst (pts s)).
Definition pt_z (s : Splat) : Q := snd (pts s).

(** [c[ch]] for [ch] in [range(3)]. *)
Definition channel (c : Q * Q * Q) (ch : nat) : Q :=
  match ch with
  | O => fst (fst c)
  | S O => snd (fst c)
  | _ => snd c
  end.

(** ** Attribute decoder (lines 27-45) *)

Definition C0 : Q := 28209479177387814 # 100000000000000000.

Definition decode_color (coeff : Q) : Q := clip ((1#2) + C0 * coeff) 0 1.

Definition decode_opacity (np : NumPy) (logit : Q) : Q :=
  1 / (1 + np_exp np (- logit)).

Definition decode_radius (np : NumPy) (s0 s1 s2 : Q) : Q :=
  let scale_0 := np_exp np s0 in
  let scale_1 := np_exp np s1 in
  let scale_2 := np_exp np s2 in
  let scales := np_sort [scale_0; scale_1; scale_2] in
  (nth 1 scales 0 + nth 2 scales 0) / 2.

Definition decode (np : NumPy) (v : Vertex) : Splat :=
  {| pts := (v_x v, v_y v, v_z v);
     colors := (decode_color (v_f_dc_0 v),
                decode_color (v_f_dc_1 v),
                decode_color (v_f_dc_2 v));
     opacity := decode_opacity np (v_opacity v);
     splat_radius := decode_radius np (v_scale_0 v) (v_scale_1 v) (v_scale_2 v) |}.

(** ** Visibility filter (lines 47-50) *)

Definition opacity_threshold : Q := 2 # 100.

Definition mask (s : Splat) : bool := Qgtb (opacity s) opacity_threshold.

Definition filter_low_opacity (l : list Splat) : list Splat := filter mask l.

(** ** Rotation about the Y axis (lines 52-62) *)

Definition mean (l : list Q) : Q := Qsum l / inject_Z (Z.of_nat (length l)).

Definition rotate_point (cos_a sin_a : Q) (center : Q * Q * Q) (s : Splat) : Splat :=
  let '(cx, cy, cz) := center in
  let x := pt_x s - cx in
  let y := pt_y s - cy in
  let z := pt_z s - cz in
  let x_rot := x * cos_a + z * sin_a in
  let z_rot := - x * sin_a + z * cos_a in
  {| pts := (x_rot + cx, y + cy, z_rot + cz);
     colors := colors s; opacity := opacity s; splat_radius := splat_radius s |}.

Definition rotate (np : NumPy) (angle_deg : Q) (l : list Splat) : list Splat :=
  if Qeq_bool angle_deg 0 then l
  else
    let rad := np_radians np angle_deg in
    let cos_a := np_cos np rad in
    let sin_a := np_sin np rad in
    let center := (mean (map pt_x l), mean (map pt_y l), mean (map pt_z l)) in
    map (rotate_point cos_a sin_a center) l.

(** ** Viewport framer (lines 64-96) *)

(** [np.percentile(a, q)] with the default linear interpolation: the value
    at the fractional position [q/100 * (n-1)] of the sorted array. *)
Definition percentile (a : list Q) (q : Q) : Q :=
  let s := np_sort a in
  let n := Z.of_nat (length a) in
  let virtual_index := q / 100 * inject_Z (n - 1) in
  let lo := Qfloor virtual_index in
  let hi := Z.min (lo + 1) (n - 1) in
  let gamma := virtual_index - inject_Z lo in
  let a_lo := nth (Z.to_nat lo) s 0 in
  let a_hi := nth (Z.to_nat hi) s 0 in
  a_lo + gamma * (a_hi - a_lo).

Record Bounds := { x_min : Q; x_max : Q; y_min : Q; y_max : Q }.

Definition eps : Q := 1 # 100000000.

Definition scene_bounds (x y : list Q) : Bounds :=
  {| x_min := percentile x (1#2); x_max := percentile x (199#2);
     y_min := percentile y (1#2); y_max := percentile y (199#2) |}.

Definition padding (b : Bounds) : Bounds :=
  let x_pad := (x_max b - x_min b) * (1#10) in
  let y_pad := (y_max b - y_min b) * (1#10) in
  {| x_min := x_min b - x_pad; x_max := x_max b + x_pad;
     y_min := y_min b - y_pad; y_max := y_max b + y_pad |}.

Definition preserve_aspect (b : Bounds) (image_aspect : Q) : Bounds :=
  let scene_w := x_max b - x_min b in
  let scene_h := y_max b - y_min b in
  let scene_aspect := scene_w / (scene_h + eps) in
  if Qgtb scene_aspect image_aspect then
    let new_h := scene_w / image_aspect in
    let extra := (new_h - scene_h) / 2 in
    {| x_min := x_min b; x_max := x_max b;
       y_min := y_min b - extra; y_max := y_max b + extra |}
  else
    let new_w := scene_h * image_aspect in
    let extra := (new_w - scene_w) / 2 in
    {| x_min := x_min b - extra; x_max := x_max b + extra;
       y_min := y_min b; y_max := y_max b |}.

(** The world window of a render: percentiles, padding, aspect fit. *)
Definition frame (x y : list Q) (width height : Z) : Bounds :=
  preserve_aspect (padding (scene_bounds x y)) (inject_Z width / inject_Z height).

Definition px_per_unit (b : Bounds) (width : Z) : Q :=
  inject_Z (width - 1) / (x_max b - x_min b + eps).

(** ** Projector (lines 98-110) *)

(** One row of the parallel arrays [px], [py], [z], [colors], [opacity],
    [pixel_radii]. *)
Record Projected := {
  px : Z; py : Z; z : Q;
  p_colors : Q * Q * Q;
  p_opacity : Q;
  pixel_radii : Z
}.

Definition pixel_radius (radius ppu : Q) : Z := astype_int (clip (radius * ppu) 1 12).

Definition project (b : Bounds) (width height : Z) (s : Splat) : Projected :=
  {| px := astype_int ((pt_x s - x_min b) / (x_max b - x_min b + eps) * inject_Z (width - 1));
     py := astype_int ((pt_y s - y_min b) / (y_max b - y_min b + eps) * inject_Z (height - 1));
     z := pt_z s;
     p_colors := colors s;
     p_opacity := opacity s;
     pixel_radii := pixel_radius (splat_radius s) (px_per_unit b width) |}.

Definition max_r : Z := 12.

Definition valid (width height : Z) (p : Projected) : bool :=
  (- max_r <=? px p)%Z && (px p <? width + max_r)%Z &&
  (- max_r <=? py p)%Z && (py p <? height + max_r)%Z.

(** ** Depth sorter (lines 112-116) *)

(** [arr[order]]: the rows of [arr] read through the index array. *)
Definition take_order {A : Type} (arr : list A) (order : list nat) : list A :=
  flat_map (fun i => match nth_error arr i with Some a => [a] | None => [] end) order.

Definition depth_sort (np : NumPy) (l : list Projected) : list Projected :=
  take_order l (np_argsort np (map z l)).

(** The splats in the order in which the compositor visits them. *)
Definition sorted_splats (np : NumPy) (v : list Vertex) (width height : Z)
    (angle_deg : Q) : list Projected :=
  let splats := rotate np angle_deg (filter_low_opacity (map (decode np) v)) in
  let b := frame (map pt_x splats) (map pt_y splats) width height in
  depth_sort np (filter (valid width height) (map (project b width height) splats)).

(** ** Compositor (lines 118-166) *)

(** The canvas: [img[y, x, ch]] and [alpha_buf[y, x]].  A slice update
    changes the cells inside the slice and no other. *)
Record Canvas := { img : Z -> Z -> nat -> Q; alpha_buf : Z -> Z -> Q }.

Definition zeros : Canvas :=
  {| img := fun _ _ _ => 0; alpha_buf := fun _ _ => 0 |}.

Record Box := { y0 : Z; y1 : Z; x0 : Z; x1 : Z }.

Definition bounding_box (width height : Z) (s : Projected) : Box :=
  let cx := px s in
  let cy := py s in
  let r := pixel_radii s in
  {| y0 := Z.max 0 (cy - r); y1 := Z.min height (cy + r + 1);
     x0 := Z.max 0 (cx - r); x1 := Z.min width (cx + r + 1) |}.

Definition box_empty (b : Box) : bool := (y1 b <=? y0 b)%Z || (x1 b <=? x0 b)%Z.

Definition in_box (b : Box) (y x : Z) : bool :=
  (y0 b <=? y)%Z && (y <? y1 b)%Z && (x0 b <=? x)%Z && (x <? x1 b)%Z.

(** [np.arange(lo, hi)]. *)
Definition arange (lo hi : Z) : list Z :=
  map (fun k => (lo + Z.of_nat k)%Z) (seq 0 (Z.to_nat (hi - lo))).

(** The early-exit test of line 141. *)
Definition center_opaque (width height : Z) (cv : Canvas) (s : Projected) : bool :=
  let cx := px s in
  let cy := py s in
  (0 <=? cy)%Z && (cy <? height)%Z && (0 <=? cx)%Z && (cx <? width)%Z &&
  Qgtb (alpha_buf cv cy cx) (95#100).

Definition sigma (r : Z) : Q := inject_Z r / 2 + (1#2).

Definition gauss (np : NumPy) (s : Projected) (y x : Z) : Q :=
  let dx := (x - px s)%Z in
  let dy := (y - py s)%Z in
  let dist_sq := (dx * dx + dy * dy)%Z in
  np_exp np (- inject_Z dist_sq / (2 * sigma (pixel_radii s) * sigma (pixel_radii s))).

Definition effective (np : NumPy) (cv : Canvas) (s : Projected) (y x : Z) : Q :=
  let contrib := p_opacity s * gauss np s y x in
  let remaining := 1 - alpha_buf cv y x in
  contrib * remaining.

Definition update_mask (np : NumPy) (cv : Canvas) (s : Projected) (y x : Z) : bool :=
  Qgtb (effective np cv s y x) (1#1000).

(** [update_mask.any()] over the bounding box. *)
Definition mask_any (np : NumPy) (cv : Canvas) (s : Projected) (b : Box) : bool :=
  existsb (fun y => existsb (fun x => update_mask np cv s y x) (arange (x0 b) (x1 b)))
          (arange (y0 b) (y1 b)).

(** Lines 162-166: the masked in-place additions on the box. *)
Definition update (np : NumPy) (cv : Canvas) (s : Projected) (b : Box) : Canvas :=
  {| img := fun y x ch =>
       if in_box b y x && (ch <? 3)%nat then
         img cv y x ch +
         channel (p_colors s) ch * effective np cv s y x * mask_val (update_mask np cv s y x)
       else img cv y x ch;
     alpha_buf := fun y x =>
       if in_box b y x then
         alpha_buf cv y x + effective np cv s y x * mask_val (update_mask np cv s y x)
       else alpha_buf cv y x |}.

(** The part of the loop body after the early-exit test. *)
Definition full_update (np : NumPy) (width height : Z) (cv : Canvas) (s : Projected) : Canvas :=
  let b := bounding_box width height s in
  if negb (mask_any np cv s b) then cv else update np cv s b.

(** One iteration of the loop of line 125. *)
Definition splat_step (np : NumPy) (width height : Z) (cv : Canvas) (s : Projected) : Canvas :=
  if box_empty (bounding_box width height s) then cv
  else if center_opaque width height cv s then cv
  else full_update np width height cv s.

Definition composite (np : NumPy) (width height : Z) (l : list Projected) (cv : Canvas) : Canvas :=
  fold_left (splat_step np width height) l cv.

(** The compositor of the specification's design note: the same loop
    without the early-exit test, always evaluating the full update. *)
Definition splat_step_no_early_exit (np : NumPy) (width height : Z) (cv : Canvas)
    (s : Projected) : Canvas :=
  if box_empty (bounding_box width height s) then cv
  else full_update np width height cv s.

Definition composite_no_early_exit (np : NumPy) (width height : Z) (l : list Projected)
    (cv : Canvas) : Canvas :=
  fold_left (splat_step_no_early_exit np width height) l cv.

(** ** Finalizer and the whole render (lines 17-169) *)

(** [(np.clip(img, 0, 1) * 255).astype(np.uint8)] on one cell. *)
Definition quantize (q : Q) : Z := astype_int (clip q 0 1 * 255).

(** The exceptions the body can raise before the image is handed to the
    writer: that of [np.percentile] on an empty array, that of the Python
    division, that of [np.zeros] on a negative dimension. *)
Inductive PyError := PercentileError | ZeroDivisionError | ValueError.

(** The array passed to [Image.fromarray]. *)
Record Image := { im_height : Z; im_width : Z; im_data : Z -> Z -> nat -> Z }.

(** [render_splat] up to the call of the image writer.  In source order:
    the percentiles of line 67 (on an empty array, see
    [np_percentile_empty_raises]), the Python division [width / height] of
    line 82, the allocation [np.zeros((height, width, 3))] of line 119,
    which rejects a negative dimension, then the loop and the
    quantisation. *)
Definition render_splat (np : NumPy) (v : list Vertex) (width height : Z)
    (angle_deg : Q) : PyError + Image :=
  let splats := rotate np angle_deg (filter_low_opacity (map (decode np) v)) in
  if match splats with [] => np_percentile_empty_raises np | _ :: _ => false end
  then inl PercentileError
  else if (height =? 0)%Z then inl ZeroDivisionError
  else if (width <? 0)%Z || (height <? 0)%Z then inl ValueError
  else
    let cv := composite np width height (sorted_splats np v width height angle_deg) zeros in
    inr {| im_height := height; im_width := width;
           im_data := fun y x ch => quantize (img cv y x ch) |}.

(** ** Command line (lines 173-184) *)

(** What the script does with its arguments: print the usage line and
    exit with status 1, fail in [int] or [float] with [ValueError], or
    call [render_splat] with these five arguments. *)
Inductive CliOutcome :=
  | UsageExit1
  | ParseError
  | CallRender (ply_path output_path : String.string) (w h : Z) (angle : Q).

(** [sys.argv[i]], read only where the length test has passed. *)
Definition argv_at (argv : list String.string) (i : nat) : String.string :=
  nth i argv String.EmptyString.

(** The block under [if __name__ == "__main__"].  Python's [int] and
    [float] on a string are parameters; [None] stands for their
    [ValueError]. *)
Definition main (py_int : String.string -> option Z) (py_float : String.string -> option Q)
    (argv : list String.string) : CliOutcome :=
  if (length argv <? 3)%nat then UsageExit1
  else
    let ply_path := argv_at argv 1 in
    let output_path := argv_at argv 2 in
    match (if (3 <? length argv)%nat then py_int (argv_at argv 3) else Some 1024%Z) with
    | None => ParseError
    | Some w =>
        match (if (4 <? length argv)%nat then py_int (argv_at argv 4) else Some 768%Z) with
        | None => ParseError
        | Some h =>
            match (if (5 <? length argv)%nat then py_float (argv_at argv 5) else Some 0) with
            | None => ParseError
            | Some angle => CallRender ply_path output_path w h angle
            end
        end
    end.

(** ** Predicates used by the properties *)

(** [l1] is [l2] with some rows removed, the others in their order. *)
Inductive Subsequence {A : Type} : list A -> list A -> Prop :=
  | Subsequence_nil : Subsequence [] []
  | Subsequence_keep : forall a l1 l2, Subsequence l1 l2 -> Subsequence (a :: l1) (a :: l2)
  | Subsequence_drop : forall a l1 l2, Subsequence l1 l2 -> Subsequence l1 (a :: l2).

Definition in_unit (q : Q) : Prop := 0 <= q <= 1.

Definition alpha_in_range (cv : Canvas) : Prop :=
  forall y x, in_unit (alpha_buf cv y x).

Definition color_below_alpha (cv : Canvas) : Prop :=
  forall y x ch, 0 <= img cv y x ch <= alpha_buf cv y x.

Definition opacity_ok (s : Projected) : Prop := in_unit (p_opacity s).

Definition color_ok (s : Projected) : Prop :=
  forall ch, in_unit (channel (p_colors s) ch).

(** The contract NumPy documents for [argsort] with the default
    (quicksort) kind: the result is a permutation of the indices and
    reading the array through it gives ascending order.  Nothing is
    promised about ties.  [is_argsort zs order]: [order] is an admissible
    result for the array [zs]. *)
Definition is_argsort (zs : list Q) (order : list nat) : Prop :=
  Permutation order (seq 0 (length zs)) /\
  StronglySorted Qle (map (fun i => nth i zs 0) order).

(** The contract for every call. *)
Definition argsort_contract (argsort : list Q -> list nat) : Prop :=
  forall zs, is_argsort zs (argsort zs).

(** Two canvases that agree on a splat's box. *)
Definition agree_on_box (b : Box) (cv cv' : Canvas) : Prop :=
  forall y x, in_box b y x = true ->
              alpha_buf cv y x = alpha_buf cv' y x /\
              forall ch, img cv y x ch = img cv' y x ch.

(** ** A rational instance, to run the model on concrete inputs *)

(** The properties are proved for every [NumPy] that meets the stated
    laws.  The instance below only serves to evaluate the model: its
    functions are rational stand-ins that are exact at 0, the one argument
    at which the examples apply [np.exp], and the examples render at an
    angle of 0, where the rotation is skipped. *)

(** Positive, at most 1 on non-positive arguments, 1 at 0. *)
Definition exp_model (x : Q) : Q :=
  if Qlt_le_dec x 0 then 1 / (1 - x) else 1 + x.

(** The first terms of the cosine and sine series. *)
Definition cos_model (x : Q) : Q := 1 - x * x / 2 + x * x * x * x / 24.
Definition sin_model (x : Q) : Q := x - x * x * x / 6 + x * x * x * x * x / 120.

(** An argsort that meets the contract: insertion sort on the indices,
    an index going after the indices of equal key already placed. *)
Fixpoint insert_index (zs : list Q) (i : nat) (order : list nat) : list nat :=
  match order with
  | [] => [i]
  | j :: rest =>
      if Qlt_le_dec (nth i zs 0) (nth j zs 0) then i :: order
      else j :: insert_index zs i rest
  end.

Definition argsort_insertion (zs : list Q) : list nat :=
  fold_left (fun order i => insert_index zs i order) (seq 0 (length zs)) [].

Definition numpy_model : NumPy :=
  {| np_exp := exp_model;
     np_cos := cos_model;
     np_sin := sin_model;
     np_radians := fun d => d * (314159265 # 18000000000);
     np_argsort := argsort_insertion;
     np_percentile_empty_raises := true |}.

(** Inputs for the examples. *)
Definition vertex0 : Vertex :=
  {| v_x := 0; v_y := 0; v_z := 0;
     v_f_dc_0 := 0; v_f_dc_1 := 0; v_f_dc_2 := 0;
     v_opacity := 0;
     v_scale_0 := 0; v_scale_1 := 0; v_scale_2 := 0 |}.

(** A vertex whose colour coefficients land above, below and inside the
    clamp's range. *)
Definition vivid_vertex : Vertex :=
  {| v_x := 1; v_y := 2; v_z := 3;
     v_f_dc_0 := 2; v_f_dc_1 := -2; v_f_dc_2 := 1;
     v_opacity := 0;
     v_scale_0 := 0; v_scale_1 := 0; v_scale_2 := 0 |}.

(** Two splats on the same pixel: a red one of opacity 0.96 in front of
    an opaque blue one. *)
Definition splat_red : Projected :=
  {| px := 0; py := 0; z := 0; p_colors := (1, 0, 0);
     p_opacity := 96 # 100; pixel_radii := 1 |}.

Definition splat_blue : Projected :=
  {| px := 0; py := 0; z := 1; p_colors := (0, 0, 1);
     p_opacity := 1; pixel_radii := 1 |}.

(** A green splat at the same depth as the red one. *)
Definition splat_green : Projected :=
  {| px := 0; py := 0; z := 0; p_colors := (0, 1, 0);
     p_opacity := 1; pixel_radii := 1 |}.

(** A scene of two points, (0, 0) and (1.5e-8, 1e-8). *)
Definition tiny_x : list Q := [0; 15 # 1000000000].
Definition tiny_y : list Q := [0; 10 # 1000000000].

(** A vertex whose decoded opacity is below the threshold. *)
Definition faint_vertex : Vertex :=
  {| v_x := 5; v_y := 7; v_z := 1;
     v_f_dc_0 := 1; v_f_dc_1 := 0; v_f_dc_2 := 0;
     v_opacity := -100;
     v_scale_0 := 0; v_scale_1 := 0; v_scale_2 := 0 |}.

(** A splat whose centre is 20 pixels left of the canvas. *)
Definition far_splat : Projected :=
  {| px := -20; py := 0; z := 2; p_colors := (1, 1, 1);
     p_opacity := 1; pixel_radii := 12 |}.

(** The projection of [vertex0] on a canvas of one pixel. *)
Definition splat0 : Projected :=
  {| px := 0; py := 0; z := 0;
     p_colors := (100000000000000000 # 200000000000000000,
                  100000000000000000 # 200000000000000000,
                  100000000000000000 # 200000000000000000);
     p_opacity := 1 # 2; pixel_radii := 1 |}.

(** A world window of 10 by 10 units. *)
Definition window10 : Bounds := {| x_min := 0; x_max := 10; y_min := 0; y_max := 10 |}.

(** A splat in the opposite corner of a 40 x 40 canvas. *)
Definition corner_splat : Projected :=
  {| px := 30; py := 30; z := 3; p_colors := (0, 0, 1);
     p_opacity := 1 # 2; pixel_radii := 2 |}.

(** * Properties *)

(** ** Scalars *)

Lemma Qgtb_true (a b : Q) : Qgtb a b = true <-> b < a.
Proof.
  unfold Qgtb. destruct (Qlt_le_dec b a) as [H | H]; split; intro K;
    try reflexivity; try assumption; try discriminate.
  exfalso. apply (Qlt_irrefl a). apply Qle_lt_trans with b; assumption.
Qed.

Lemma Qgtb_false (a b : Q) : Qgtb a b = false <-> a <= b.
Proof.
  unfold Qgtb. destruct (Qlt_le_dec b a) as [H | H]; split; intro K;
    try reflexivity; try assumption; try discriminate.
  exfalso. apply (Qlt_irrefl a). apply Qle_lt_trans with b; assumption.
Qed.

Lemma clip_range (x lo hi : Q) : lo <= hi -> lo <= clip x lo hi <= hi.
Proof.
  intro H. unfold clip, Qminimum, Qmaximum.
  destruct (Qlt_le_dec x lo); destruct (Qlt_le_dec hi _); split; lra.
Qed.

(** What the clamp returns: the lower bound at or below it, the upper
    bound at or above it, and the argument itself in between. *)
Lemma clip_below (x lo hi : Q) : lo <= hi -> x <= lo -> clip x lo hi == lo.
Proof.
  intros H Hx. unfold clip, Qminimum, Qmaximum.
  destruct (Qlt_le_dec x lo); destruct (Qlt_le_dec hi _); lra.
Qed.

Lemma clip_above (x lo hi : Q) : lo <= hi -> hi <= x -> clip x lo hi == hi.
Proof.
  intros H Hx. unfold clip, Qminimum, Qmaximum.
  destruct (Qlt_le_dec x lo); destruct (Qlt_le_dec hi _); lra.
Qed.

Lemma clip_inside (x lo hi : Q) : lo <= x <= hi -> clip x lo hi = x.
Proof.
  intros [H0 H1]. unfold clip, Qminimum, Qmaximum.
  destruct (Qlt_le_dec x lo); [lra |].
  destruct (Qlt_le_dec hi x); [lra | reflexivity].
Qed.

Lemma astype_int_floor (q : Q) : 0 <= q -> astype_int q = Qfloor q.
Proof.
  destruct q as [n d]. unfold astype_int, Qfloor, Qle. simpl.
  intro H. apply Z.quot_div_nonneg; lia.
Qed.

Lemma astype_int_truncates (q : Q) :
  0 <= q -> inject_Z (astype_int q) <= q < inject_Z (astype_int q) + 1.
Proof.
  intro H. rewrite (astype_int_floor q H). split.
  - apply Qfloor_le.
  - pose proof (Qlt_floor q) as K. rewrite inject_Z_plus in K. exact K.
Qed.

Lemma exp_model_nonneg (x : Q) : 0 <= exp_model x.
Proof.
  unfold exp_model. destruct (Qlt_le_dec x 0) as [H | H].
  - apply Qle_shift_div_l; lra.
  - lra.
Qed.

Lemma exp_model_le_1 (x : Q) : x <= 0 -> exp_model x <= 1.
Proof.
  intro Hx. unfold exp_model. destruct (Qlt_le_dec x 0) as [H | H].
  - apply Qle_shift_div_r; lra.
  - lra.
Qed.

Lemma numpy_model_exp_laws : exp_laws numpy_model.
Proof.
  split; [exact exp_model_nonneg | exact exp_model_le_1].
Qed.

(** ** Projector: the pixel radius *)

Lemma pixel_radius_truncation (radius ppu : Q) :
  1 <= clip (radius * ppu) 1 12 <= 12 /\
  inject_Z (pixel_radius radius ppu) <= clip (radius * ppu) 1 12
    < inject_Z (pixel_radius radius ppu) + 1.
Proof.
  assert (Hc : 1 <= clip (radius * ppu) 1 12 <= 12) by (apply clip_range; lra).
  split; [exact Hc |]. apply astype_int_truncates. lra.
Qed.

Lemma pixel_radius_range (radius ppu : Q) : (1 <= pixel_radius radius ppu <= 12)%Z.
Proof.
  destruct (pixel_radius_truncation radius ppu) as [[Hc1 Hc2] [Ht1 Ht2]].
  split.
  - assert (K : inject_Z 1 < inject_Z (pixel_radius radius ppu + 1)).
    { rewrite inject_Z_plus.
      apply Qle_lt_trans with (clip (radius * ppu) 1 12); assumption. }
    rewrite <- Zlt_Qlt in K. lia.
  - assert (K : inject_Z (pixel_radius radius ppu) <= inject_Z 12).
    { apply Qle_trans with (clip (radius * ppu) 1 12); [exact Ht1 | exact Hc2]. }
    rewrite <- Zle_Qle in K. exact K.
Qed.

(** The cast of a float that holds a whole number. *)
Lemma astype_int_whole (q : Q) (n : Z) : 0 <= q -> q == inject_Z n -> astype_int q = n.
Proof.
  intros Hq E. rewrite (astype_int_floor q Hq), (Qfloor_comp _ _ E). apply Qfloor_Z.
Qed.

(** The three regimes of the pixel radius. *)
Lemma pixel_radius_cases (radius ppu : Q) :
  (radius * ppu <= 1 -> pixel_radius radius ppu = 1%Z) /\
  (1 <= radius * ppu <= 12 -> pixel_radius radius ppu = Qfloor (radius * ppu)) /\
  (12 <= radius * ppu -> pixel_radius radius ppu = 12%Z).
Proof.
  unfold pixel_radius. split; [| split]; intro H.
  - assert (E : clip (radius * ppu) 1 12 == 1) by (apply clip_below; lra).
    apply astype_int_whole; [lra | exact E].
  - rewrite (clip_inside _ 1 12 H). apply astype_int_floor. lra.
  - assert (E : clip (radius * ppu) 1 12 == 12) by (apply clip_above; lra).
    apply astype_int_whole; [lra | exact E].
Qed.

(** ** Attribute decoder *)

Lemma np_sort_3 (a b c : Q) :
  exists lo mid hi,
    np_sort [a; b; c] = [lo; mid; hi] /\
    Permutation [lo; mid; hi] [a; b; c] /\ lo <= mid /\ mid <= hi.
Proof.
  unfold np_sort. simpl.
  destruct (Qlt_le_dec c b) as [Hcb | Hcb]; simpl.
  - destruct (Qlt_le_dec c a) as [Hca | Hca]; simpl.
    + destruct (Qlt_le_dec b a) as [Hba | Hba]; simpl.
      * exists c, b, a. repeat split; try lra.
        apply Permutation_rev with (l := [c; b; a]).
      * exists c, a, b. repeat split; try lra.
        apply perm_trans with [a; c; b]; [apply perm_swap |].
        apply perm_skip, perm_swap.
    + exists a, c, b. repeat split; try lra. apply perm_skip, perm_swap.
  - destruct (Qlt_le_dec b a) as [Hba | Hba]; simpl.
    + destruct (Qlt_le_dec c a) as [Hca | Hca]; simpl.
      * exists b, c, a. repeat split; try lra.
        apply perm_trans with [b; a; c]; [apply perm_skip, perm_swap | apply perm_swap].
      * exists b, a, c. repeat split; try lra. apply perm_swap.
    + exists a, b, c. repeat split; try lra. apply Permutation_refl.
Qed.

Lemma decode_opacity_range (np : NumPy) (logit : Q) :
  (forall x, 0 <= np_exp np x) -> in_unit (decode_opacity np logit).
Proof.
  intro Hexp. unfold in_unit, decode_opacity.
  pose proof (Hexp (- logit)) as He. split.
  - apply Qle_shift_div_l; lra.
  - apply Qle_shift_div_r; lra.
Qed.

Lemma decode_color_range (coeff : Q) : in_unit (decode_color coeff).
Proof. unfold in_unit, decode_color. apply clip_range. lra. Qed.

(** What the colour clamp returns for a coefficient. *)
Lemma decode_color_cases (coeff : Q) :
  ((1#2) + C0 * coeff <= 0 -> decode_color coeff == 0) /\
  (0 <= (1#2) + C0 * coeff <= 1 -> decode_color coeff == (1#2) + C0 * coeff) /\
  (1 <= (1#2) + C0 * coeff -> decode_color coeff == 1).
Proof.
  unfold decode_color. split; [| split]; intro H.
  - apply clip_below; lra.
  - rewrite (clip_inside _ 0 1 H). reflexivity.
  - apply clip_above; lra.
Qed.

(** C6.  Decoding a raw point gives the three colour channels
    [clip(0.5 + C0 * coeff, 0, 1)] with [C0 = 0.28209479177387814], the
    opacity [1 / (1 + exp(-logit))] and, as radius, the mean of the two
    largest of the three exponentiated log-scales.  The clamp returns 0
    when [0.5 + C0 * coeff] is at or below 0, 1 when it is at or above 1
    and [0.5 + C0 * coeff] itself in between: the coefficients 0, 1, -1, 2
    and -2 give 0.5, 0.78209479177387814, 0.21790520822612186, 1 and 0.
    Hence every colour channel and the opacity lie in [0, 1] and the
    radius is not negative.  The position is passed on unchanged.  Of
    [np.exp] only non-negativity is used. *)
Theorem decode_attributes (np : NumPy) (v : Vertex) :
  (forall x, 0 <= np_exp np x) ->
  let s := decode np v in
  C0 = 28209479177387814 # 100000000000000000 /\
  colors s = (clip ((1#2) + C0 * v_f_dc_0 v) 0 1,
              clip ((1#2) + C0 * v_f_dc_1 v) 0 1,
              clip ((1#2) + C0 * v_f_dc_2 v) 0 1) /\
  opacity s = 1 / (1 + np_exp np (- v_opacity v)) /\
  (exists lo mid hi,
      Permutation [lo; mid; hi]
        [np_exp np (v_scale_0 v); np_exp np (v_scale_1 v); np_exp np (v_scale_2 v)] /\
      lo <= mid /\ mid <= hi /\ splat_radius s = (mid + hi) / 2) /\
  (forall ch, in_unit (channel (colors s) ch)) /\
  in_unit (opacity s) /\
  0 <= splat_radius s /\
  (forall ch,
      let raw := (1#2) + C0 * channel (v_f_dc_0 v, v_f_dc_1 v, v_f_dc_2 v) ch in
      (raw <= 0 -> channel (colors s) ch == 0) /\
      (0 <= raw <= 1 -> channel (colors s) ch == raw) /\
      (1 <= raw -> channel (colors s) ch == 1)) /\
  pts s = (v_x v, v_y v, v_z v) /\
  decode_color 0 == 1 # 2 /\
  decode_color 1 == 78209479177387814 # 100000000000000000 /\
  decode_color (- (1)) == 21790520822612186 # 100000000000000000 /\
  decode_color 2 == 1 /\
  decode_color (- (2)) == 0.
Proof.
  intros Hexp s.
  destruct (np_sort_3 (np_exp np (v_scale_0 v)) (np_exp np (v_scale_1 v))
                      (np_exp np (v_scale_2 v)))
    as (lo & mid & hi & Hsort & Hperm & Hlm & Hmh).
  assert (Hrad : splat_radius s = (mid + hi) / 2).
  { unfold s. cbv [decode splat_radius decode_radius]. rewrite Hsort. reflexivity. }
  assert (Hlo : 0 <= lo).
  { assert (Hin : In lo [np_exp np (v_scale_0 v); np_exp np (v_scale_1 v);
                         np_exp np (v_scale_2 v)]).
    { apply (Permutation_in lo Hperm). left. reflexivity. }
    simpl in Hin. destruct Hin as [E | [E | [E | []]]]; rewrite <- E; apply Hexp. }
  split; [reflexivity |]. split; [reflexivity |]. split; [reflexivity |].
  split; [exists lo, mid, hi; repeat split; assumption |].
  split; [intro ch; destruct ch as [| [| ch]]; simpl; apply decode_color_range |].
  split; [apply (decode_opacity_range np _ Hexp) |].
  split; [rewrite Hrad; apply Qle_shift_div_l; lra |].
  split; [intro ch; destruct ch as [| [| ch]]; simpl; apply decode_color_cases |].
  split; [reflexivity |].
  split; [rewrite (proj1 (proj2 (decode_color_cases 0))); unfold C0; lra |].
  split; [rewrite (proj1 (proj2 (decode_color_cases 1))); unfold C0; lra |].
  split; [rewrite (proj1 (proj2 (decode_color_cases (- (1))))); unfold C0; lra |].
  split; [apply (proj2 (proj2 (decode_color_cases 2))); unfold C0; lra |].
  apply (proj1 (decode_color_cases (- (2)))). unfold C0. lra.
Qed.

Lemma decode_attributes_witness :
  (forall x, 0 <= np_exp numpy_model x) /\
  in_unit (opacity (decode numpy_model vertex0)) /\
  0 <= splat_radius (decode numpy_model vertex0) /\
  channel (colors (decode numpy_model vivid_vertex)) 0 == 1 /\
  channel (colors (decode numpy_model vivid_vertex)) 1 == 0 /\
  channel (colors (decode numpy_model vivid_vertex)) 2
    == 78209479177387814 # 100000000000000000.
Proof.
  split; [exact exp_model_nonneg |].
  pose proof (decode_attributes numpy_model vertex0 exp_model_nonneg) as H.
  simpl in H. destruct H as (_ & _ & _ & _ & _ & Ho & Hr & _).
  split; [exact Ho |]. split; [exact Hr |].
  pose proof (decode_attributes numpy_model vivid_vertex exp_model_nonneg) as K.
  cbv zeta in K. destruct K as (_ & _ & _ & _ & _ & _ & _ & Kc & _).
  split; [| split].
  - apply (proj2 (proj2 (Kc 0%nat))). vm_compute. discriminate.
  - apply (proj1 (Kc 1%nat)). vm_compute. discriminate.
  - rewrite (proj1 (proj2 (Kc 2%nat))).
    + vm_compute. reflexivity.
    + split; vm_compute; discriminate.
Defined.

(** ** Visibility filter *)

Lemma mask_true (s : Splat) : mask s = true <-> opacity_threshold < opacity s.
Proof. unfold mask. apply Qgtb_true. Qed.

Lemma mask_false (s : Splat) : mask s = false <-> opacity s <= opacity_threshold.
Proof. unfold mask. apply Qgtb_false. Qed.

Lemma filter_Subsequence {A : Type} (f : A -> bool) (l : list A) :
  Subsequence (filter f l) l.
Proof.
  induction l as [| a l IH]; simpl.
  - constructor.
  - destruct (f a); constructor; exact IH.
Qed.

(** The rows kept and the rows dropped by the mask make up the input. *)
Lemma kept_and_dropped_rows (rows : list Splat) :
  Permutation rows (filter_low_opacity rows ++ filter (fun s => negb (mask s)) rows).
Proof.
  unfold filter_low_opacity.
  induction rows as [| s rows IH]; simpl; [constructor |].
  destruct (mask s); simpl; [apply perm_skip | apply Permutation_cons_app]; exact IH.
Qed.

(** C5.  The visibility filter keeps exactly the splats whose opacity is
    above 0.02: a splat is in the output if and only if it is in the
    input with opacity above 0.02, the output is the input with rows
    removed and the others in their order, and the removed rows, all of
    opacity at most 0.02, together with the output make up the input. *)
Theorem filter_low_opacity_exact (l : list Splat) :
  opacity_threshold = 2 # 100 /\
  (forall s, In s (filter_low_opacity l) <-> In s l /\ 2 # 100 < opacity s) /\
  Subsequence (filter_low_opacity l) l /\
  (exists dropped,
      Permutation l (filter_low_opacity l ++ dropped) /\
      Forall (fun s => opacity s <= 2 # 100) dropped).
Proof.
  split; [reflexivity |]. split; [| split].
  - intro s. unfold filter_low_opacity. rewrite filter_In, mask_true. reflexivity.
  - apply filter_Subsequence.
  - exists (filter (fun s => negb (mask s)) l). split.
    + apply kept_and_dropped_rows.
    + apply Forall_forall. intros s Hs. apply filter_In in Hs.
      destruct Hs as [_ Hs]. apply negb_true_iff in Hs.
      apply mask_false in Hs. exact Hs.
Qed.

(** ** From the decoder to the compositor *)

Lemma take_order_In {A : Type} (arr : list A) (order : list nat) (a : A) :
  In a (take_order arr order) -> In a arr.
Proof.
  unfold take_order. intro H. apply in_flat_map in H.
  destruct H as (i & _ & Hi).
  destruct (nth_error arr i) as [a' |] eqn:E; [| contradiction].
  destruct Hi as [<- | []]. apply (nth_error_In _ _ E).
Qed.

Lemma sorted_splats_from_projection (np : NumPy) (v : list Vertex) (width height : Z)
    (angle_deg : Q) (q : Projected) :
  In q (sorted_splats np v width height angle_deg) ->
  exists s,
    In s (rotate np angle_deg (filter_low_opacity (map (decode np) v))) /\
    q = project
          (frame (map pt_x (rotate np angle_deg (filter_low_opacity (map (decode np) v))))
                 (map pt_y (rotate np angle_deg (filter_low_opacity (map (decode np) v))))
                 width height)
          width height s.
Proof.
  unfold sorted_splats, depth_sort. intro H.
  apply take_order_In in H. apply filter_In in H. destruct H as [H _].
  apply in_map_iff in H. destruct H as (s & Hs & Hin). exists s. split; [exact Hin |].
  symmetry. exact Hs.
Qed.

Lemma rotate_keeps_attributes (np : NumPy) (angle_deg : Q) (l : list Splat) (s : Splat) :
  In s (rotate np angle_deg l) ->
  exists s0, In s0 l /\ opacity s = opacity s0 /\ colors s = colors s0 /\
             splat_radius s = splat_radius s0.
Proof.
  unfold rotate. destruct (Qeq_bool angle_deg 0).
  - intro H. exists s. repeat split; [exact H | ..]; reflexivity.
  - intro H. apply in_map_iff in H. destruct H as (s0 & <- & Hin).
    exists s0. unfold rotate_point. repeat split; [exact Hin | ..]; reflexivity.
Qed.

(** The splats that reach the compositor carry a decoded opacity and a
    decoded colour, both in [0, 1]. *)
Lemma sorted_splats_attributes (np : NumPy) (v : list Vertex) (width height : Z)
    (angle_deg : Q) :
  (forall x, 0 <= np_exp np x) ->
  Forall opacity_ok (sorted_splats np v width height angle_deg) /\
  Forall color_ok (sorted_splats np v width height angle_deg).
Proof.
  intro Hexp.
  assert (H : forall q, In q (sorted_splats np v width height angle_deg) ->
                        opacity_ok q /\ color_ok q).
  { intros q Hq. apply sorted_splats_from_projection in Hq.
    destruct Hq as (s & Hs & ->).
    apply rotate_keeps_attributes in Hs. destruct Hs as (s0 & Hin & Eo & Ec & _).
    apply filter_In in Hin. destruct Hin as [Hin _].
    apply in_map_iff in Hin. destruct Hin as (v0 & <- & _).
    unfold opacity_ok, color_ok, project; simpl. rewrite Eo, Ec. split.
    - apply decode_opacity_range. exact Hexp.
    - intro ch. destruct ch as [| [| ch]]; simpl; apply decode_color_range. }
  split; apply Forall_forall; intros q Hq; apply (H q Hq).
Qed.

(** ** Projector: the pixel radius of every splat *)

(** C10.  The pixel radius of a projected splat is [radius * px_per_unit]
    clamped to [1, 12] and then truncated toward zero.  A product at or
    below 1 gives radius 1, a product at or above 12 gives radius 12, and
    a product in between gives its integer part: 1.9 pixels give 1, 5.7
    give 5, 7.5 give 7, 11.99 give 11, 20 give 12, and 0.5 or a negative
    product give 1.  So the radius is an integer between 1 and 12 whatever
    the world radius and the scale.  The compositor reads the radius from
    the integer field [pixel_radii]: every splat it visits carries the
    clamped and truncated radius of a surviving splat, and its [sigma] is
    half of the integer [radius + 1]. *)
Theorem pixel_radius_integer_1_12 (radius ppu : Q) :
  let clamped := clip (radius * ppu) 1 12 in
  (1 <= pixel_radius radius ppu <= 12)%Z /\
  1 <= clamped <= 12 /\
  inject_Z (pixel_radius radius ppu) <= clamped < inject_Z (pixel_radius radius ppu) + 1 /\
  pixel_radius (19 # 10) 1 = 1%Z /\
  (forall b width height s,
      pixel_radii (project b width height s) =
      pixel_radius (splat_radius s) (px_per_unit b width)) /\
  (radius * ppu <= 1 -> clamped == 1 /\ pixel_radius radius ppu = 1%Z) /\
  (1 <= radius * ppu <= 12 ->
   clamped == radius * ppu /\
   pixel_radius radius ppu = Qfloor (radius * ppu) /\
   inject_Z (pixel_radius radius ppu) <= radius * ppu
     < inject_Z (pixel_radius radius ppu) + 1) /\
  (12 <= radius * ppu -> clamped == 12 /\ pixel_radius radius ppu = 12%Z) /\
  pixel_radius (1 # 2) 1 = 1%Z /\
  pixel_radius (- (3)) 1 = 1%Z /\
  pixel_radius (57 # 10) 1 = 5%Z /\
  pixel_radius 3 (5 # 2) = 7%Z /\
  pixel_radius (1199 # 100) 1 = 11%Z /\
  pixel_radius 12 1 = 12%Z /\
  pixel_radius 20 1 = 12%Z /\
  (forall np v width height angle_deg p,
      In p (sorted_splats np v width height angle_deg) ->
      (1 <= pixel_radii p <= 12)%Z /\
      (exists s,
          In s (rotate np angle_deg (filter_low_opacity (map (decode np) v))) /\
          pixel_radii p =
          pixel_radius (splat_radius s)
            (px_per_unit
               (frame (map pt_x (rotate np angle_deg
                                   (filter_low_opacity (map (decode np) v))))
                      (map pt_y (rotate np angle_deg
                                   (filter_low_opacity (map (decode np) v))))
                      width height)
               width)) /\
      sigma (pixel_radii p) == inject_Z (pixel_radii p + 1) / 2 /\
      1 <= sigma (pixel_radii p) <= 13 # 2).
Proof.
  intro clamped.
  destruct (pixel_radius_truncation radius ppu) as [Hc Ht].
  destruct (pixel_radius_cases radius ppu) as (Hlow & Hmid & Hhigh).
  split; [apply pixel_radius_range |].
  split; [exact Hc |]. split; [exact Ht |]. split; [reflexivity |].
  split; [reflexivity |].
  split; [| split; [| split]].
  - intro H. split; [apply clip_below; lra | exact (Hlow H)].
  - intro H.
    assert (E : clamped = radius * ppu) by (apply clip_inside; exact H).
    split; [rewrite E; reflexivity |]. split; [exact (Hmid H) |].
    rewrite <- E. exact Ht.
  - intro H. split; [apply clip_above; lra | exact (Hhigh H)].
  - do 7 (split; [reflexivity |]).
    intros np v width height angle_deg p Hp.
    destruct (sorted_splats_from_projection np v width height angle_deg p Hp)
      as (s & Hs & ->).
    cbn [pixel_radii project].
    set (r := pixel_radius _ _).
    assert (Hr : (1 <= r <= 12)%Z) by apply pixel_radius_range.
    assert (H1 : inject_Z 1 <= inject_Z r) by (rewrite <- Zle_Qle; lia).
    assert (H12 : inject_Z r <= inject_Z 12) by (rewrite <- Zle_Qle; lia).
    split; [exact Hr |].
    split; [exists s; split; [exact Hs | reflexivity] |].
    unfold sigma, Qdiv. rewrite inject_Z_plus.
    change (inject_Z 1) with 1 in *. change (inject_Z 12) with 12 in *.
    change (/ 2) with (1 # 2). split; [ring | split; lra].
Qed.

(** ** Compositor: the accumulators stay in range *)

Lemma neg_div_nonpos (n m : Q) : 0 <= n -> 0 <= m -> - n / m <= 0.
Proof.
  intros Hn Hm. unfold Qdiv.
  pose proof (Qinv_le_0_compat m Hm) as Hi.
  assert (H : 0 <= n * / m) by (apply Qmult_le_0_compat; assumption).
  lra.
Qed.

Lemma inject_Z_square_sum_nonneg (a b : Z) : 0 <= inject_Z (a * a + b * b).
Proof.
  change 0 with (inject_Z 0). rewrite <- Zle_Qle. nia.
Qed.

Lemma gauss_range (np : NumPy) (s : Projected) (y x : Z) :
  exp_laws np -> in_unit (gauss np s y x).
Proof.
  intros [Hpos Hle]. unfold in_unit, gauss. split.
  - apply Hpos.
  - apply Hle. apply neg_div_nonpos.
    + apply inject_Z_square_sum_nonneg.
    + assert (H : 0 <= sigma (pixel_radii s) * sigma (pixel_radii s)) by nra.
      lra.
Qed.

(** The effective contribution never exceeds the remaining budget. *)
Lemma effective_range (np : NumPy) (cv : Canvas) (s : Projected) (y x : Z) :
  exp_laws np -> opacity_ok s -> in_unit (alpha_buf cv y x) ->
  0 <= effective np cv s y x <= 1 - alpha_buf cv y x.
Proof.
  intros Hnp [Ha0 Ha1] [Hb0 Hb1]. unfold effective.
  destruct (gauss_range np s y x Hnp) as [Hg0 Hg1].
  set (g := gauss np s y x) in *. set (a := p_opacity s) in *.
  set (t := alpha_buf cv y x) in *.
  assert (Hc0 : 0 <= a * g) by (apply Qmult_le_0_compat; assumption).
  assert (Hc1 : a * g <= 1) by nra.
  set (c := a * g) in *. split; nra.
Qed.

Lemma masked_effective_range (np : NumPy) (cv : Canvas) (s : Projected) (y x : Z) :
  exp_laws np -> opacity_ok s -> in_unit (alpha_buf cv y x) ->
  0 <= effective np cv s y x * mask_val (update_mask np cv s y x)
    <= 1 - alpha_buf cv y x.
Proof.
  intros Hnp Hs Hb. pose proof (effective_range np cv s y x Hnp Hs Hb) as He.
  destruct Hb as [Hb0 Hb1].
  destruct (update_mask np cv s y x); unfold mask_val; lra.
Qed.

Lemma update_alpha_in_range (np : NumPy) (cv : Canvas) (s : Projected) (b : Box) :
  exp_laws np -> opacity_ok s -> alpha_in_range cv -> alpha_in_range (update np cv s b).
Proof.
  intros Hnp Hs Hcv y x. unfold update; simpl.
  pose proof (Hcv y x) as Hb.
  pose proof (masked_effective_range np cv s y x Hnp Hs Hb) as He.
  destruct Hb as [Hb0 Hb1]. unfold in_unit.
  destruct (in_box b y x); lra.
Qed.

Lemma splat_step_cases (np : NumPy) (width height : Z) (cv : Canvas) (s : Projected) :
  splat_step np width height cv s = cv \/
  splat_step np width height cv s = update np cv s (bounding_box width height s).
Proof.
  unfold splat_step, full_update.
  destruct (box_empty _); [left; reflexivity |].
  destruct (center_opaque _ _ _ _); [left; reflexivity |].
  destruct (mask_any _ _ _ _); simpl; [right | left]; reflexivity.
Qed.

Lemma splat_step_alpha_in_range (np : NumPy) (width height : Z) (cv : Canvas) (s : Projected) :
  exp_laws np -> opacity_ok s -> alpha_in_range cv ->
  alpha_in_range (splat_step np width height cv s).
Proof.
  intros Hnp Hs Hcv.
  destruct (splat_step_cases np width height cv s) as [E | E]; rewrite E.
  - exact Hcv.
  - apply update_alpha_in_range; assumption.
Qed.

Lemma composite_alpha_in_range (np : NumPy) (width height : Z) (l : list Projected) :
  exp_laws np -> Forall opacity_ok l ->
  forall cv, alpha_in_range cv -> alpha_in_range (composite np width height l cv).
Proof.
  intros Hnp Hl. unfold composite.
  induction Hl as [| s l Hs Hl IH]; intros cv Hcv; simpl.
  - exact Hcv.
  - apply IH. apply splat_step_alpha_in_range; assumption.
Qed.

Lemma zeros_alpha_in_range : alpha_in_range zeros.
Proof. intros y x. unfold in_unit; simpl. lra. Qed.

Lemma Forall_firstn {A : Type} (P : A -> Prop) (l : list A) (k : nat) :
  Forall P l -> Forall P (firstn k l).
Proof.
  intro H. rewrite <- (firstn_skipn k l) in H.
  apply Forall_app in H. destruct H as [H _]. exact H.
Qed.

(** C1.  Every cell of the alpha accumulator stays within [0, 1] at every
    point of the compositing loop, that is after any number [k] of splats,
    whatever their order and count, as long as each opacity is in [0, 1]:
    an update adds [effective = opacity * gauss * (1 - alpha_buf)], which
    lies between 0 and the remaining budget [1 - alpha_buf].  The splats
    that the renderer itself decodes, filters, projects and sorts meet the
    condition, so the bound holds throughout every render.  Of [np.exp]
    the proof uses that it is not negative and at most 1 on non-positive
    arguments, so that [gauss] is in [0, 1]. *)
Theorem alpha_buf_within_unit_interval (np : NumPy) (width height : Z) (l : list Projected) :
  exp_laws np -> Forall opacity_ok l ->
  (forall k y x,
      0 <= alpha_buf (composite np width height (firstn k l) zeros) y x <= 1) /\
  (forall cv s y x,
      opacity_ok s -> alpha_in_range cv ->
      in_unit (gauss np s y x) /\
      0 <= effective np cv s y x <= 1 - alpha_buf cv y x) /\
  (forall v angle_deg k y x,
      0 <= alpha_buf (composite np width height
                        (firstn k (sorted_splats np v width height angle_deg)) zeros) y x
        <= 1).
Proof.
  intros Hnp Hl. split; [| split].
  - intros k y x.
    apply (composite_alpha_in_range np width height (firstn k l) Hnp).
    + apply Forall_firstn. exact Hl.
    + exact zeros_alpha_in_range.
  - intros cv s y x Hs Hcv. split.
    + apply gauss_range. exact Hnp.
    + apply effective_range; [exact Hnp | exact Hs | apply Hcv].
  - intros v angle_deg k y x.
    apply (composite_alpha_in_range np width height _ Hnp).
    + apply Forall_firstn.
      apply (sorted_splats_attributes np v width height angle_deg (exp_nonneg np Hnp)).
    + exact zeros_alpha_in_range.
Qed.

Lemma splat_red_blue_opacity_ok : Forall opacity_ok [splat_red; splat_blue].
Proof.
  repeat constructor; unfold opacity_ok, in_unit; simpl; lra.
Qed.

Lemma alpha_buf_within_unit_interval_witness :
  exp_laws numpy_model /\ Forall opacity_ok [splat_red; splat_blue] /\
  0 <= alpha_buf (composite numpy_model 1 1 (firstn 2 [splat_red; splat_blue]) zeros) 0 0 <= 1.
Proof.
  split; [exact numpy_model_exp_laws |].
  split; [exact splat_red_blue_opacity_ok |].
  apply (alpha_buf_within_unit_interval numpy_model 1 1 [splat_red; splat_blue]
           numpy_model_exp_laws splat_red_blue_opacity_ok).
Defined.

(** ** Compositor: colour never exceeds alpha *)

Lemma update_color_below_alpha (np : NumPy) (cv : Canvas) (s : Projected) (b : Box) :
  exp_laws np -> opacity_ok s -> color_ok s ->
  alpha_in_range cv -> color_below_alpha cv ->
  color_below_alpha (update np cv s b).
Proof.
  intros Hnp Hs Hc Ha Hcv y x ch. unfold update; simpl.
  pose proof (Hcv y x ch) as [Hi0 Hi1].
  pose proof (effective_range np cv s y x Hnp Hs (Ha y x)) as [He0 He1].
  destruct (Hc ch) as [Hc0 Hc1].
  set (e := effective np cv s y x) in *.
  set (c := channel (p_colors s) ch) in *.
  destruct (update_mask np cv s y x); unfold mask_val;
    destruct (in_box b y x); simpl; try (split; lra);
    destruct (ch <? 3)%nat; split; nra.
Qed.

Lemma splat_step_color_below_alpha (np : NumPy) (width height : Z) (cv : Canvas)
    (s : Projected) :
  exp_laws np -> opacity_ok s -> color_ok s ->
  alpha_in_range cv -> color_below_alpha cv ->
  color_below_alpha (splat_step np width height cv s).
Proof.
  intros Hnp Hs Hc Ha Hcv.
  destruct (splat_step_cases np width height cv s) as [E | E]; rewrite E.
  - exact Hcv.
  - apply update_color_below_alpha; assumption.
Qed.

Lemma composite_color_below_alpha (np : NumPy) (width height : Z) (l : list Projected) :
  exp_laws np -> Forall opacity_ok l -> Forall color_ok l ->
  forall cv, alpha_in_range cv -> color_below_alpha cv ->
             color_below_alpha (composite np width height l cv).
Proof.
  intros Hnp Hl. unfold composite.
  induction Hl as [| s l Hs Hl IH]; intros Hc cv Ha Hcv; simpl.
  - exact Hcv.
  - inversion Hc as [| s' l' Hcs Hcl]; subst.
    apply IH.
    + exact Hcl.
    + apply splat_step_alpha_in_range; assumption.
    + apply splat_step_color_below_alpha; assumption.
Qed.

Lemma zeros_color_below_alpha : color_below_alpha zeros.
Proof. intros y x ch. simpl. lra. Qed.

Lemma composite_from_zeros_bounds (np : NumPy) (width height : Z) (l : list Projected) :
  exp_laws np -> Forall opacity_ok l -> Forall color_ok l ->
  forall y x ch,
    0 <= img (composite np width height l zeros) y x ch /\
    img (composite np width height l zeros) y x ch
      <= alpha_buf (composite np width height l zeros) y x /\
    alpha_buf (composite np width height l zeros) y x <= 1 /\
    img (composite np width height l zeros) y x ch <= 1.
Proof.
  intros Hnp Hl Hc y x ch.
  pose proof (composite_alpha_in_range np width height l Hnp Hl zeros
                zeros_alpha_in_range y x) as [Ha0 Ha1].
  pose proof (composite_color_below_alpha np width height l Hnp Hl Hc zeros
                zeros_alpha_in_range zeros_color_below_alpha y x ch) as [Hi0 Hi1].
  repeat split; try assumption. lra.
Qed.

(** C9.  At every pixel and after any number [k] of composited splats,
    each channel of the colour accumulator is between 0 and the alpha
    accumulator of that pixel, which is at most 1: a colour increment is
    [color * effective] with [color] in [0, 1], while alpha gains the whole
    of [effective].  So the colours are at most 1 before the final
    clamp.  This holds for any splats with opacity and colour in [0, 1],
    and so for the splats of every render. *)
Theorem img_bounded_by_alpha_buf (np : NumPy) (width height : Z) (l : list Projected) :
  exp_laws np -> Forall opacity_ok l -> Forall color_ok l ->
  (forall k y x ch,
      let cv := composite np width height (firstn k l) zeros in
      0 <= img cv y x ch /\
      img cv y x ch <= alpha_buf cv y x /\
      alpha_buf cv y x <= 1 /\
      img cv y x ch <= 1) /\
  (forall v angle_deg k y x ch,
      let cv := composite np width height
                  (firstn k (sorted_splats np v width height angle_deg)) zeros in
      0 <= img cv y x ch /\
      img cv y x ch <= alpha_buf cv y x /\
      alpha_buf cv y x <= 1 /\
      img cv y x ch <= 1).
Proof.
  intros Hnp Hl Hc. split.
  - intros k y x ch cv.
    apply (composite_from_zeros_bounds np width height (firstn k l) Hnp);
      apply Forall_firstn; assumption.
  - intros v angle_deg k y x ch cv.
    destruct (sorted_splats_attributes np v width height angle_deg (exp_nonneg np Hnp))
      as [Ho Hcol].
    apply (composite_from_zeros_bounds np width height _ Hnp);
      apply Forall_firstn; assumption.
Qed.

Lemma splat_red_blue_color_ok : Forall color_ok [splat_red; splat_blue].
Proof.
  constructor; [| constructor; [| constructor]];
    intro ch; unfold in_unit; destruct ch as [| [| ch]]; simpl; lra.
Qed.

Lemma img_bounded_by_alpha_buf_witness :
  exp_laws numpy_model /\ Forall opacity_ok [splat_red; splat_blue] /\
  Forall color_ok [splat_red; splat_blue] /\
  img (composite numpy_model 1 1 (firstn 2 [splat_red; splat_blue]) zeros) 0 0 0
  <= alpha_buf (composite numpy_model 1 1 (firstn 2 [splat_red; splat_blue]) zeros) 0 0.
Proof.
  split; [exact numpy_model_exp_laws |].
  split; [exact splat_red_blue_opacity_ok |].
  split; [exact splat_red_blue_color_ok |].
  apply (proj1 (img_bounded_by_alpha_buf numpy_model 1 1 [splat_red; splat_blue]
                  numpy_model_exp_laws splat_red_blue_opacity_ok splat_red_blue_color_ok)
           2%nat 0%Z 0%Z 0%nat).
Defined.

(** ** Compositor: the early-exit test *)

Lemma splat_step_no_early_exit_cases (np : NumPy) (width height : Z) (cv : Canvas)
    (s : Projected) :
  splat_step_no_early_exit np width height cv s = cv \/
  splat_step_no_early_exit np width height cv s =
    update np cv s (bounding_box width height s).
Proof.
  unfold splat_step_no_early_exit, full_update.
  destruct (box_empty _); [left; reflexivity |].
  destruct (mask_any _ _ _ _); simpl; [right | left]; reflexivity.
Qed.

Lemma center_opaque_alpha (width height : Z) (cv : Canvas) (s : Projected) :
  center_opaque width height cv s = true -> 95 # 100 < alpha_buf cv (py s) (px s).
Proof.
  unfold center_opaque. intro H.
  apply andb_true_iff in H. destruct H as [_ H].
  apply Qgtb_true in H. exact H.
Qed.

(** The two-splat scene on a canvas of one pixel: with the early-exit test
    the blue splat is skipped (alpha at its centre is 0.96) and the pixel
    ends as (244, 0, 0); without the test the blue splat adds
    [1 * 1 * (1 - 0.96)] and the pixel ends as (244, 0, 10).  [np.exp] is
    only applied to 0 here. *)
Lemma early_exit_changes_image :
  center_opaque 1 1 (composite numpy_model 1 1 [splat_red] zeros) splat_blue = true /\
  quantize (img (composite numpy_model 1 1 [splat_red; splat_blue] zeros) 0 0 2) = 0%Z /\
  quantize (img (composite_no_early_exit numpy_model 1 1 [splat_red; splat_blue] zeros)
              0 0 2) = 10%Z /\
  ~ (forall y x ch,
        quantize (img (composite numpy_model 1 1 [splat_red; splat_blue] zeros) y x ch) =
        quantize (img (composite_no_early_exit numpy_model 1 1 [splat_red; splat_blue] zeros)
                    y x ch)).
Proof.
  split; [vm_compute; reflexivity |].
  split; [vm_compute; reflexivity |].
  split; [vm_compute; reflexivity |].
  intro H. specialize (H 0%Z 0%Z 2%nat). vm_compute in H. discriminate H.
Qed.

(** C2, as the code has it.  The early-exit test is not neutral: a splat
    whose centre pixel is inside the canvas with alpha above 0.95 leaves
    the canvas untouched, while the full update could still raise alpha
    at every pixel of its box, at the centre pixel by less than 0.05.  A
    splat for which the test is false is composited exactly as by the
    loop without the test. *)
Theorem early_exit_skips_small_update (np : NumPy) (width height : Z) (cv : Canvas)
    (s : Projected) :
  exp_laws np -> opacity_ok s -> alpha_in_range cv ->
  (center_opaque width height cv s = false ->
   splat_step np width height cv s = splat_step_no_early_exit np width height cv s) /\
  (center_opaque width height cv s = true ->
   splat_step np width height cv s = cv /\
   (forall y x,
       alpha_buf cv y x <= alpha_buf (splat_step_no_early_exit np width height cv s) y x) /\
   alpha_buf (splat_step_no_early_exit np width height cv s) (py s) (px s)
     - alpha_buf cv (py s) (px s) < 5 # 100).
Proof.
  intros Hnp Hs Hcv. split; intro Hc.
  - unfold splat_step, splat_step_no_early_exit. rewrite Hc. reflexivity.
  - split; [| split].
    + unfold splat_step. rewrite Hc. destruct (box_empty _); reflexivity.
    + intros y x.
      destruct (splat_step_no_early_exit_cases np width height cv s) as [E | E];
        rewrite E; [lra |].
      unfold update; simpl.
      pose proof (masked_effective_range np cv s y x Hnp Hs (Hcv y x)) as [He0 He1].
      destruct (in_box _ y x); lra.
    + pose proof (center_opaque_alpha width height cv s Hc) as Ha.
      destruct (splat_step_no_early_exit_cases np width height cv s) as [E | E];
        rewrite E; [lra |].
      unfold update; simpl.
      pose proof (masked_effective_range np cv s (py s) (px s) Hnp Hs (Hcv (py s) (px s)))
        as [He0 He1].
      destruct (in_box _ (py s) (px s)); lra.
Qed.

Lemma opacity_ok_splat_blue : opacity_ok splat_blue.
Proof. unfold opacity_ok, in_unit; simpl; lra. Qed.

Lemma alpha_in_range_after_red :
  alpha_in_range (composite numpy_model 1 1 [splat_red] zeros).
Proof.
  apply composite_alpha_in_range.
  - exact numpy_model_exp_laws.
  - constructor; [unfold opacity_ok, in_unit; simpl; lra | constructor].
  - exact zeros_alpha_in_range.
Qed.

Lemma early_exit_skips_small_update_witness :
  exp_laws numpy_model /\ opacity_ok splat_blue /\
  alpha_in_range (composite numpy_model 1 1 [splat_red] zeros) /\
  center_opaque 1 1 (composite numpy_model 1 1 [splat_red] zeros) splat_blue = true /\
  splat_step numpy_model 1 1 (composite numpy_model 1 1 [splat_red] zeros) splat_blue =
  composite numpy_model 1 1 [splat_red] zeros.
Proof.
  split; [exact numpy_model_exp_laws |].
  split; [exact opacity_ok_splat_blue |].
  split; [exact alpha_in_range_after_red |].
  assert (Hc : center_opaque 1 1 (composite numpy_model 1 1 [splat_red] zeros) splat_blue
               = true) by (vm_compute; reflexivity).
  split; [exact Hc |].
  apply (early_exit_skips_small_update numpy_model 1 1
           (composite numpy_model 1 1 [splat_red] zeros) splat_blue
           numpy_model_exp_laws opacity_ok_splat_blue alpha_in_range_after_red).
  exact Hc.
Defined.

(** ** Viewport framer *)

(** Division by the constant 2, put in the form linear arithmetic reads. *)
Ltac halves :=
  repeat match goal with
         | |- context [?w / 2] => change (w / 2) with (w * (1 # 2))
         end.

Lemma Qlt_div_iff (a b c : Q) : 0 < c -> (a < b / c <-> a * c < b).
Proof.
  intro Hc. split; intro H.
  - apply (Qmult_lt_r _ _ c Hc) in H.
    assert (E : b / c * c == b) by (field; lra).
    rewrite E in H. exact H.
  - apply Qlt_shift_div_l; assumption.
Qed.

Lemma image_aspect_pos (width height : Z) :
  (0 < width)%Z -> (0 < height)%Z -> 0 < inject_Z width / inject_Z height.
Proof.
  intros Hw Hh. apply Qlt_shift_div_l.
  - change 0 with (inject_Z 0). rewrite <- Zlt_Qlt. exact Hh.
  - rewrite Qmult_0_l. change 0 with (inject_Z 0). rewrite <- Zlt_Qlt. exact Hw.
Qed.

Lemma preserve_aspect_ratio (b : Bounds) (a : Q) :
  0 < a -> y_min b < y_max b ->
  (x_max (preserve_aspect b a) - x_min (preserve_aspect b a)) /
  (y_max (preserve_aspect b a) - y_min (preserve_aspect b a)) == a.
Proof.
  intros Ha Hy. unfold preserve_aspect.
  destruct (Qgtb _ a) eqn:E; simpl.
  - apply Qgtb_true in E. apply Qlt_div_iff in E; [| unfold eps; lra].
    field. split; [lra |]. unfold eps in E. nra.
  - field. lra.
Qed.

Lemma preserve_aspect_vertical_grows (b : Bounds) (a : Q) :
  0 < a -> y_min b <= y_max b ->
  y_min (preserve_aspect b a) <= y_min b /\ y_max b <= y_max (preserve_aspect b a).
Proof.
  intros Ha Hy. unfold preserve_aspect.
  destruct (Qgtb _ a) eqn:E; simpl; [| split; lra].
  apply Qgtb_true in E. apply Qlt_div_iff in E; [| unfold eps; lra].
  assert (H : y_max b - y_min b < (x_max b - x_min b) / a).
  { apply Qlt_shift_div_l; [exact Ha |]. unfold eps in E. nra. }
  set (new_h := (x_max b - x_min b) / a) in *.
  assert (Hx : 0 <= (new_h - (y_max b - y_min b)) / 2)
    by (apply Qle_shift_div_l; lra).
  split; lra.
Qed.

Lemma preserve_aspect_horizontal (b : Bounds) (a : Q) :
  0 < a -> y_min b <= y_max b ->
  ((x_max b - x_min b) <= (y_max b - y_min b) * a ->
   x_min (preserve_aspect b a) <= x_min b /\ x_max b <= x_max (preserve_aspect b a)) /\
  (x_max b - x_min b) - (x_max (preserve_aspect b a) - x_min (preserve_aspect b a))
    <= eps * a.
Proof.
  intros Ha Hy. unfold preserve_aspect.
  destruct (Qgtb _ a) eqn:E; simpl.
  - split; [intros _; split; lra |].
    assert (H : 0 <= eps * a) by (unfold eps; nra). lra.
  - apply Qgtb_false in E.
    assert (E' : x_max b - x_min b <= a * (y_max b - y_min b + eps)).
    { destruct (Qlt_le_dec (a * (y_max b - y_min b + eps)) (x_max b - x_min b))
        as [K | K]; [| exact K].
      exfalso.
      apply Qlt_div_iff in K; [| unfold eps; lra]. lra. }
    clear E. unfold eps in *. halves. split.
    + intro Hle. split; nra.
    + nra.
Qed.

(** The two-point scene rendered at 100 x 100: its padded window is about
    [-1.4e-9, 1.64e-8] wide and [-9.4e-10, 1.09e-8] high, the aspect test
    compares 1.782e-8 / (1.188e-8 + 1e-8) with 1 and takes the second
    branch, and the refit window [1.56e-9, 1.344e-8] is narrower than the
    padded one: it leaves out both points. *)
Lemma frame_shrinks_horizontal_axis :
  y_min (padding (scene_bounds tiny_x tiny_y)) < y_max (padding (scene_bounds tiny_x tiny_y)) /\
  x_min (padding (scene_bounds tiny_x tiny_y)) < x_max (padding (scene_bounds tiny_x tiny_y)) /\
  x_min (padding (scene_bounds tiny_x tiny_y)) < x_min (frame tiny_x tiny_y 100 100) /\
  x_max (frame tiny_x tiny_y 100 100) < x_max (padding (scene_bounds tiny_x tiny_y)) /\
  x_min (frame tiny_x tiny_y 100 100) == 156 # 100000000000 /\
  x_max (frame tiny_x tiny_y 100 100) == 1344 # 100000000000.
Proof.
  repeat split; vm_compute; reflexivity.
Qed.

(** C7, as the code has it.  When the padded percentile window has a
    positive height and the image dimensions are positive, the world
    window ends with aspect ratio exactly [width / height].  One axis is
    changed, the other kept.  The vertical axis is never shrunk.  The
    horizontal axis is grown when the scene is at most [image_aspect]
    times as wide as high; because the aspect test divides by
    [scene_h + 1e-8], a scene slightly wider than that is still sent to
    the horizontal branch and its window is shrunk, by at most
    [1e-8 * image_aspect]. *)
Theorem frame_aspect_exact (x y : list Q) (width height : Z) :
  (0 < width)%Z -> (0 < height)%Z ->
  y_min (padding (scene_bounds x y)) < y_max (padding (scene_bounds x y)) ->
  let p := padding (scene_bounds x y) in
  let b := frame x y width height in
  let image_aspect := inject_Z width / inject_Z height in
  (x_max b - x_min b) / (y_max b - y_min b) == image_aspect /\
  (y_min b <= y_min p /\ y_max p <= y_max b) /\
  ((x_max p - x_min p) <= (y_max p - y_min p) * image_aspect ->
   x_min b <= x_min p /\ x_max p <= x_max b) /\
  (x_max p - x_min p) - (x_max b - x_min b) <= eps * image_aspect /\
  ((x_min b = x_min p /\ x_max b = x_max p) \/ (y_min b = y_min p /\ y_max b = y_max p)).
Proof.
  intros Hw Hh Hy p b image_aspect.
  pose proof (image_aspect_pos width height Hw Hh) as Ha.
  assert (Hy' : y_min p <= y_max p) by (apply Qlt_le_weak; exact Hy).
  split; [| split; [| split; [| split]]].
  - apply preserve_aspect_ratio; assumption.
  - apply preserve_aspect_vertical_grows; assumption.
  - apply (preserve_aspect_horizontal p _ Ha Hy').
  - apply (preserve_aspect_horizontal p _ Ha Hy').
  - unfold b, frame, preserve_aspect. fold p.
    destruct (Qgtb _ _); simpl; [left | right]; split; reflexivity.
Qed.

Lemma frame_aspect_exact_witness :
  (0 < 100)%Z /\
  y_min (padding (scene_bounds tiny_x tiny_y)) < y_max (padding (scene_bounds tiny_x tiny_y)) /\
  (x_max (frame tiny_x tiny_y 100 100) - x_min (frame tiny_x tiny_y 100 100)) /
  (y_max (frame tiny_x tiny_y 100 100) - y_min (frame tiny_x tiny_y 100 100))
  == inject_Z 100 / inject_Z 100.
Proof.
  assert (Hy : y_min (padding (scene_bounds tiny_x tiny_y))
               < y_max (padding (scene_bounds tiny_x tiny_y)))
    by (vm_compute; reflexivity).
  split; [lia |]. split; [exact Hy |].
  apply (frame_aspect_exact tiny_x tiny_y 100 100 ltac:(lia) ltac:(lia) Hy).
Defined.

(** ** Depth sorter *)

Lemma take_order_Permutation {A : Type} (arr : list A) (o1 o2 : list nat) :
  Permutation o1 o2 -> Permutation (take_order arr o1) (take_order arr o2).
Proof.
  unfold take_order. induction 1 as [| i o1 o2 H IH | i j o | o1 o2 o3 H1 IH1 H2 IH2]; simpl.
  - constructor.
  - apply Permutation_app_head. exact IH.
  - rewrite !app_assoc. apply Permutation_app_tail. apply Permutation_app_comm.
  - apply perm_trans with (flat_map
      (fun i => match nth_error arr i with Some a => [a] | None => [] end) o2);
      assumption.
Qed.

Lemma take_order_seq {A : Type} (l1 l2 : list A) :
  take_order (l1 ++ l2) (seq (length l1) (length l2)) = l2.
Proof.
  revert l1. induction l2 as [| a l2 IH]; intro l1; simpl.
  - reflexivity.
  - unfold take_order in *. simpl.
    rewrite nth_error_app2 by lia. rewrite Nat.sub_diag. simpl. f_equal.
    specialize (IH (l1 ++ [a])). rewrite <- app_assoc in IH. simpl in IH.
    rewrite length_app in IH. simpl in IH.
    replace (length l1 + 1)%nat with (S (length l1)) in IH by lia. exact IH.
Qed.

Lemma take_order_identity {A : Type} (l : list A) :
  take_order l (seq 0 (length l)) = l.
Proof. apply (take_order_seq [] l). Qed.

Lemma map_take_order (l : list Projected) (order : list nat) :
  Forall (fun i => (i < length l)%nat) order ->
  map z (take_order l order) = map (fun i => nth i (map z l) 0) order.
Proof.
  unfold take_order. induction 1 as [| i order Hi Ho IH]; simpl.
  - reflexivity.
  - rewrite map_app, IH. f_equal.
    destruct (nth_error l i) as [a |] eqn:E.
    + simpl. f_equal. symmetry.
      apply nth_error_nth. rewrite nth_error_map, E. reflexivity.
    + apply nth_error_None in E. lia.
Qed.

Lemma StronglySorted_map_z (l : list Projected) :
  StronglySorted Qle (map z l) -> StronglySorted (fun a b => z a <= z b) l.
Proof.
  induction l as [| a l IH]; simpl; intro H.
  - constructor.
  - apply StronglySorted_inv in H. destruct H as [Hs Hf]. constructor.
    + apply IH. exact Hs.
    + rewrite Forall_map in Hf. exact Hf.
Qed.

(** What the contract of [np.argsort] gives for the depth sorter. *)
Lemma depth_sort_ascending (np : NumPy) (l : list Projected) :
  is_argsort (map z l) (np_argsort np (map z l)) ->
  StronglySorted (fun a b => z a <= z b) (depth_sort np l) /\
  Permutation (depth_sort np l) l.
Proof.
  intros [Hperm Hsorted]. unfold depth_sort.
  rewrite length_map in Hperm. split.
  - apply StronglySorted_map_z. rewrite map_take_order; [exact Hsorted |].
    apply (Permutation_Forall (Permutation_sym Hperm)).
    apply Forall_forall. intros i Hi. apply in_seq in Hi. lia.
  - apply perm_trans with (take_order l (seq 0 (length l))).
    + apply take_order_Permutation. exact Hperm.
    + rewrite take_order_identity. apply Permutation_refl.
Qed.

Lemma insert_index_Permutation (zs : list Q) (i : nat) (order : list nat) :
  Permutation (insert_index zs i order) (i :: order).
Proof.
  induction order as [| j rest IH]; simpl.
  - apply Permutation_refl.
  - destruct (Qlt_le_dec (nth i zs 0) (nth j zs 0)).
    + apply Permutation_refl.
    + apply perm_trans with (j :: i :: rest); [apply perm_skip, IH | apply perm_swap].
Qed.

Lemma insert_index_sorted (zs : list Q) (i : nat) (order : list nat) :
  StronglySorted (fun a b => nth a zs 0 <= nth b zs 0) order ->
  StronglySorted (fun a b => nth a zs 0 <= nth b zs 0) (insert_index zs i order).
Proof.
  induction 1 as [| j rest Hs IH Hf]; simpl.
  - repeat constructor.
  - destruct (Qlt_le_dec (nth i zs 0) (nth j zs 0)) as [Hlt | Hle].
    + constructor; [constructor; assumption |].
      constructor; [apply Qlt_le_weak; exact Hlt |].
      apply Forall_forall. intros k Hk. rewrite Forall_forall in Hf.
      apply Qle_trans with (nth j zs 0); [apply Qlt_le_weak; exact Hlt | apply Hf, Hk].
    + constructor; [exact IH |].
      apply (Permutation_Forall (Permutation_sym (insert_index_Permutation zs i rest))).
      constructor; assumption.
Qed.

Lemma fold_insert_index (zs : list Q) (l acc : list nat) :
  StronglySorted (fun a b => nth a zs 0 <= nth b zs 0) acc ->
  StronglySorted (fun a b => nth a zs 0 <= nth b zs 0)
    (fold_left (fun order i => insert_index zs i order) l acc) /\
  Permutation (fold_left (fun order i => insert_index zs i order) l acc) (acc ++ l).
Proof.
  revert acc. induction l as [| i l IH]; intros acc Hacc; simpl.
  - split; [exact Hacc | rewrite app_nil_r; apply Permutation_refl].
  - destruct (IH (insert_index zs i acc) (insert_index_sorted zs i acc Hacc)) as [Hs Hp].
    split; [exact Hs |].
    apply perm_trans with (insert_index zs i acc ++ l); [exact Hp |].
    apply perm_trans with ((i :: acc) ++ l).
    + apply Permutation_app_tail. apply insert_index_Permutation.
    + simpl. apply Permutation_middle.
Qed.

Lemma StronglySorted_map_key (zs : list Q) (order : list nat) :
  StronglySorted (fun a b => nth a zs 0 <= nth b zs 0) order ->
  StronglySorted Qle (map (fun i => nth i zs 0) order).
Proof.
  induction 1 as [| j rest Hs IH Hf]; simpl; constructor.
  - exact IH.
  - rewrite Forall_map. exact Hf.
Qed.

Lemma argsort_insertion_contract : argsort_contract argsort_insertion.
Proof.
  intro zs. unfold argsort_insertion.
  destruct (fold_insert_index zs (seq 0 (length zs)) []) as [Hs Hp]; [constructor |].
  split; [exact Hp |]. apply StronglySorted_map_key. exact Hs.
Qed.

Lemma StronglySorted_nth_error {A : Type} (R : A -> A -> Prop) (l : list A) :
  StronglySorted R l ->
  forall i j a b, (i < j)%nat -> nth_error l i = Some a -> nth_error l j = Some b -> R a b.
Proof.
  induction 1 as [| c l Hs IH Hf]; intros i j a b Hij Hi Hj.
  - destruct i; discriminate Hi.
  - destruct j as [| j]; [lia |]. simpl in Hj. destruct i as [| i]; simpl in Hi.
    + injection Hi as <-. rewrite Forall_forall in Hf.
      apply Hf. apply (nth_error_In _ _ Hj).
    + apply (IH i j a b); [lia | exact Hi | exact Hj].
Qed.

(** ** Percentiles *)

Lemma insert_asc_Permutation (x : Q) (l : list Q) : Permutation (insert_asc x l) (x :: l).
Proof.
  induction l as [| y l IH]; simpl.
  - apply Permutation_refl.
  - destruct (Qlt_le_dec y x).
    + apply perm_trans with (y :: x :: l); [apply perm_skip, IH | apply perm_swap].
    + apply Permutation_refl.
Qed.

Lemma np_sort_Permutation (l : list Q) : Permutation (np_sort l) l.
Proof.
  unfold np_sort. induction l as [| x l IH]; simpl.
  - constructor.
  - apply perm_trans with (x :: fold_right insert_asc [] l).
    + apply insert_asc_Permutation.
    + apply perm_skip, IH.
Qed.

Lemma np_sort_length (l : list Q) : length (np_sort l) = length l.
Proof. apply Permutation_length, np_sort_Permutation. Qed.

Lemma insert_asc_sorted (x : Q) (l : list Q) :
  StronglySorted Qle l -> StronglySorted Qle (insert_asc x l).
Proof.
  induction 1 as [| y l Hs IH Hf]; simpl.
  - repeat constructor.
  - destruct (Qlt_le_dec y x) as [Hlt | Hle].
    + constructor; [exact IH |].
      apply (Permutation_Forall (Permutation_sym (insert_asc_Permutation x l))).
      constructor; [apply Qlt_le_weak; exact Hlt | exact Hf].
    + constructor; [constructor; assumption |].
      constructor; [exact Hle |].
      apply Forall_forall. intros k Hk. rewrite Forall_forall in Hf.
      apply Qle_trans with y; [exact Hle | apply Hf, Hk].
Qed.

Lemma np_sort_sorted (l : list Q) : StronglySorted Qle (np_sort l).
Proof.
  unfold np_sort. induction l as [| x l IH]; simpl.
  - constructor.
  - apply insert_asc_sorted, IH.
Qed.

Lemma sorted_nth_le (s : list Q) (i j : nat) :
  StronglySorted Qle s -> (i <= j)%nat -> (j < length s)%nat -> nth i s 0 <= nth j s 0.
Proof.
  intros Hs Hij Hj.
  destruct (Nat.eq_dec i j) as [-> | Hne]; [apply Qle_refl |].
  apply (StronglySorted_nth_error Qle s Hs i j); [lia | |];
    apply nth_error_nth'; lia.
Qed.

(** The fractional position of a percentile lies inside the array. *)
Lemma virtual_index_range (n : Z) (q : Q) :
  (1 <= n)%Z -> 0 <= q -> q <= 100 ->
  0 <= q / 100 * inject_Z (n - 1) <= inject_Z (n - 1).
Proof.
  intros Hn Hq0 Hq1.
  assert (Hm : 0 <= inject_Z (n - 1)).
  { change 0 with (inject_Z 0). rewrite <- Zle_Qle. lia. }
  assert (Hd0 : 0 <= q / 100) by (apply Qle_shift_div_l; lra).
  assert (Hd1 : q / 100 <= 1) by (apply Qle_shift_div_r; lra).
  set (m := inject_Z (n - 1)) in *. set (d := q / 100) in *.
  split; nra.
Qed.

Lemma floor_index_range (n : Z) (v : Q) :
  0 <= v <= inject_Z (n - 1) -> (0 <= Qfloor v <= n - 1)%Z.
Proof.
  intros [H0 H1]. split.
  - change 0%Z with (Qfloor 0). apply Qfloor_resp_le. exact H0.
  - rewrite <- (Qfloor_Z (n - 1)). apply Qfloor_resp_le. exact H1.
Qed.

Lemma floor_fraction (v : Q) : 0 <= v - inject_Z (Qfloor v) < 1.
Proof.
  pose proof (Qfloor_le v) as H0. pose proof (Qlt_floor v) as H1.
  rewrite inject_Z_plus in H1. change (inject_Z 1) with 1 in H1.
  split; lra.
Qed.

Lemma lerp_between (A B g : Q) :
  A <= B -> 0 <= g -> g <= 1 -> A <= A + g * (B - A) <= B.
Proof. intros. split; nra. Qed.

Lemma lerp_monotone (A B g1 g2 : Q) :
  A <= B -> g1 <= g2 -> A + g1 * (B - A) <= A + g2 * (B - A).
Proof. intros. nra. Qed.

(** A percentile lies between the two sorted values around its position. *)
Lemma percentile_between (a : list Q) (q : Q) :
  a <> [] -> 0 <= q -> q <= 100 ->
  let s := np_sort a in
  let n := Z.of_nat (length a) in
  let lo := Qfloor (q / 100 * inject_Z (n - 1)) in
  let hi := Z.min (lo + 1) (n - 1) in
  (0 <= lo <= n - 1)%Z /\ (lo <= hi <= n - 1)%Z /\
  nth (Z.to_nat lo) s 0 <= percentile a q <= nth (Z.to_nat hi) s 0.
Proof.
  intros Ha Hq0 Hq1 s n lo hi.
  assert (Hn : (1 <= n)%Z).
  { unfold n. destruct a; [contradiction | simpl length; lia]. }
  pose proof (virtual_index_range n q Hn Hq0 Hq1) as Hv.
  pose proof (floor_index_range n _ Hv) as Hlo.
  assert (Hhi : (lo <= hi <= n - 1)%Z) by (unfold hi; fold lo in Hlo; lia).
  split; [exact Hlo |]. split; [exact Hhi |].
  assert (Hle : nth (Z.to_nat lo) s 0 <= nth (Z.to_nat hi) s 0).
  { apply sorted_nth_le.
    - apply np_sort_sorted.
    - fold lo in Hlo. lia.
    - unfold s. rewrite np_sort_length. unfold n in *. lia. }
  pose proof (floor_fraction (q / 100 * inject_Z (n - 1))) as [Hg0 Hg1].
  apply lerp_between; [exact Hle | exact Hg0 | apply Qlt_le_weak; exact Hg1].
Qed.

(** Percentiles grow with the rank: the upper robust bound is never below
    the lower one. *)
Lemma percentile_monotone (a : list Q) (q1 q2 : Q) :
  0 <= q1 -> q1 <= q2 -> q2 <= 100 -> percentile a q1 <= percentile a q2.
Proof.
  intros H0 H12 H100.
  destruct a as [| x a'] eqn:Ea.
  - unfold percentile; simpl.
    destruct (Z.to_nat _), (Z.to_nat _), (Z.to_nat _), (Z.to_nat _); lra.
  - rewrite <- Ea. assert (Ha : a <> []) by (rewrite Ea; discriminate). clear Ea.
    assert (Hq1 : q1 <= 100) by lra. assert (Hq2 : 0 <= q2) by lra.
    pose proof (percentile_between a q1 Ha H0 Hq1) as (Hlo1 & Hhi1 & Hb1).
    pose proof (percentile_between a q2 Ha Hq2 H100) as (Hlo2 & Hhi2 & Hb2).
    cbv zeta in *.
    set (n := Z.of_nat (length a)) in *.
    set (v1 := q1 / 100 * inject_Z (n - 1)) in *.
    set (v2 := q2 / 100 * inject_Z (n - 1)) in *.
    assert (Hn : (1 <= n)%Z).
    { unfold n. destruct a; [contradiction | simpl length; lia]. }
    assert (Hv : v1 <= v2).
    { unfold v1, v2.
      assert (Hm : 0 <= inject_Z (n - 1)).
      { change 0 with (inject_Z 0). rewrite <- Zle_Qle. lia. }
      assert (Hd : q1 / 100 <= q2 / 100).
      { apply Qle_shift_div_l; [lra |].
        assert (E : q1 / 100 * 100 == q1) by (field; lra). lra. }
      set (m := inject_Z (n - 1)) in *. nra. }
    pose proof (Qfloor_resp_le _ _ Hv) as Hf.
    destruct (Z.eq_dec (Qfloor v1) (Qfloor v2)) as [E | Hne].
    + (* same interval: the interpolation weight grows *)
      unfold percentile. fold n. fold v1. fold v2. rewrite <- E.
      assert (Hle : nth (Z.to_nat (Qfloor v1)) (np_sort a) 0
                    <= nth (Z.to_nat (Z.min (Qfloor v1 + 1) (n - 1))) (np_sort a) 0).
      { apply sorted_nth_le.
        - apply np_sort_sorted.
        - lia.
        - rewrite np_sort_length. unfold n in *. lia. }
      apply lerp_monotone; [exact Hle | lra].
    + (* a later interval: compare through the sorted array *)
      apply Qle_trans with (nth (Z.to_nat (Z.min (Qfloor v1 + 1) (n - 1))) (np_sort a) 0);
        [apply Hb1 |].
      apply Qle_trans with (nth (Z.to_nat (Qfloor v2)) (np_sort a) 0); [| apply Hb2].
      apply sorted_nth_le.
      * apply np_sort_sorted.
      * lia.
      * rewrite np_sort_length. unfold n in *. lia.
Qed.

Lemma Forall_nth_Qeq (s : list Q) (c : Q) (i : nat) :
  Forall (fun x => x == c) s -> (i < length s)%nat -> nth i s 0 == c.
Proof.
  intros H Hi. rewrite Forall_forall in H. apply H. apply nth_In. exact Hi.
Qed.

(** The percentiles of an array whose values are all equal to [c]. *)
Lemma percentile_constant (a : list Q) (c q : Q) :
  a <> [] -> 0 <= q -> q <= 100 ->
  Forall (fun x => x == c) a -> percentile a q == c.
Proof.
  intros Ha Hq0 Hq1 Hc.
  pose proof (percentile_between a q Ha Hq0 Hq1) as (Hlo & Hhi & Hb).
  cbv zeta in *.
  assert (Hs : Forall (fun x => x == c) (np_sort a))
    by (apply (Permutation_Forall (Permutation_sym (np_sort_Permutation a))); exact Hc).
  assert (Hlen : length (np_sort a) = length a) by apply np_sort_length.
  rewrite (Forall_nth_Qeq _ c _ Hs) in Hb by lia.
  rewrite (Forall_nth_Qeq _ c _ Hs) in Hb by lia.
  destruct Hb as [Hb1 Hb2]. apply Qle_antisym; assumption.
Qed.

(** ** The whole render: dimensions *)

Lemma rotate_nonempty (np : NumPy) (angle_deg : Q) (l : list Splat) :
  l <> [] -> rotate np angle_deg l <> [].
Proof.
  intro H. unfold rotate. destruct (Qeq_bool angle_deg 0); [exact H |].
  destruct l; [contradiction | discriminate].
Qed.

(** With a width of zero every bounding box is empty. *)
Lemma box_empty_width_0 (height : Z) (s : Projected) :
  box_empty (bounding_box 0 height s) = true.
Proof.
  unfold box_empty, bounding_box; simpl.
  apply orb_true_iff. right. apply Z.leb_le. lia.
Qed.

Lemma composite_width_0 (np : NumPy) (height : Z) (l : list Projected) (cv : Canvas) :
  composite np 0 height l cv = cv.
Proof.
  unfold composite. revert cv. induction l as [| s l IH]; intro cv; simpl.
  - reflexivity.
  - unfold splat_step at 2. rewrite box_empty_width_0. apply IH.
Qed.

(** The render of one point asked at width 0 and height 1 raises nothing:
    the aspect is [0 / 1], the canvas has no column, the splat is skipped
    for its empty box and the empty array reaches the writer.  At height 0
    the division [width / height] raises, at a negative width the
    allocation of the canvas does. *)
Lemma render_splat_has_no_dimension_check :
  (exists im, render_splat numpy_model [vertex0] 0 1 0 = inr im /\
              im_width im = 0%Z /\ im_height im = 1%Z) /\
  render_splat numpy_model [vertex0] 1 0 0 = inl ZeroDivisionError /\
  render_splat numpy_model [vertex0] (-1) 1 0 = inl ValueError /\
  ~ (forall width height,
        (width <= 0 \/ height <= 0)%Z ->
        exists e, render_splat numpy_model [vertex0] width height 0 = inl e).
Proof.
  assert (H : exists im, render_splat numpy_model [vertex0] 0 1 0 = inr im /\
                         im_width im = 0%Z /\ im_height im = 1%Z).
  { eexists. split; [reflexivity | split; reflexivity]. }
  split; [exact H |]. split; [reflexivity |]. split; [reflexivity |].
  intro K. destruct (K 0%Z 1%Z) as [e He]; [left; lia |].
  destruct H as (im & Him & _). rewrite Him in He. discriminate He.
Qed.

(** C8, as the code has it.  The renderer does not validate the
    dimensions.  Once the percentiles are computed (some splat survives
    the filter): a height of 0 fails with [ZeroDivisionError] at the
    division [width / height]; a negative width or height (height not 0)
    fails with [ValueError] when the canvas is allocated; both before the
    writer is called, so nothing is written.  A width of 0 with a positive
    height raises no error: every splat is skipped and an array with no
    column is handed to the writer. *)
Theorem render_splat_bad_dimensions (np : NumPy) (v : list Vertex) (width height : Z)
    (angle_deg : Q) :
  filter_low_opacity (map (decode np) v) <> [] ->
  (height = 0%Z -> render_splat np v width height angle_deg = inl ZeroDivisionError) /\
  (height <> 0%Z -> (width < 0 \/ height < 0)%Z ->
   render_splat np v width height angle_deg = inl ValueError) /\
  ((0 < height)%Z -> width = 0%Z ->
   exists im, render_splat np v width height angle_deg = inr im /\
              im_width im = 0%Z /\ im_height im = height /\
              forall y x ch, im_data im y x ch = 0%Z).
Proof.
  intro Hne. pose proof (rotate_nonempty np angle_deg _ Hne) as Hr.
  unfold render_splat.
  destruct (rotate np angle_deg (filter_low_opacity (map (decode np) v)))
    as [| s0 splats] eqn:Es; [contradiction |].
  split; [| split].
  - intros ->. reflexivity.
  - intros Hh Hneg.
    destruct (height =? 0)%Z eqn:E0; [apply Z.eqb_eq in E0; contradiction |].
    assert (E : ((width <? 0) || (height <? 0))%Z = true).
    { apply orb_true_iff. destruct Hneg as [K | K]; [left | right]; apply Z.ltb_lt; exact K. }
    rewrite E. reflexivity.
  - intros Hh ->.
    destruct (height =? 0)%Z eqn:E0; [apply Z.eqb_eq in E0; lia |].
    assert (E : ((0 <? 0) || (height <? 0))%Z = false).
    { apply orb_false_iff. split; apply Z.ltb_ge; lia. }
    rewrite E. eexists. split; [reflexivity |]. simpl.
    split; [reflexivity |]. split; [reflexivity |].
    intros y x ch. rewrite composite_width_0. reflexivity.
Qed.

Lemma vertex0_survives : filter_low_opacity (map (decode numpy_model) [vertex0]) <> [].
Proof. vm_compute. discriminate. Qed.

Lemma render_splat_bad_dimensions_witness :
  filter_low_opacity (map (decode numpy_model) [vertex0]) <> [] /\
  render_splat numpy_model [vertex0] 5 0 0 = inl ZeroDivisionError.
Proof.
  split; [exact vertex0_survives |].
  apply (render_splat_bad_dimensions numpy_model [vertex0] 5 0 0 vertex0_survives).
  reflexivity.
Defined.

(** ** The whole render: degenerate scenes *)

Lemma astype_int_Qeq_0 (q : Q) : q == 0 -> astype_int q = 0%Z.
Proof.
  destruct q as [n d]. unfold Qeq, astype_int; simpl. intro H.
  assert (E : n = 0%Z) by lia. rewrite E. reflexivity.
Qed.

Lemma scene_bounds_constant (xs ys : list Q) (cx cy : Q) :
  xs <> [] -> ys <> [] ->
  Forall (fun x => x == cx) xs -> Forall (fun y => y == cy) ys ->
  x_min (scene_bounds xs ys) == cx /\ x_max (scene_bounds xs ys) == cx /\
  y_min (scene_bounds xs ys) == cy /\ y_max (scene_bounds xs ys) == cy.
Proof.
  intros Hx Hy Hcx Hcy. unfold scene_bounds; simpl.
  repeat split; apply percentile_constant; try assumption; lra.
Qed.

Lemma preserve_aspect_zero_span (p : Bounds) (a cx cy : Q) :
  0 < a ->
  x_min p == cx -> x_max p == cx -> y_min p == cy -> y_max p == cy ->
  x_min (preserve_aspect p a) == cx /\ x_max (preserve_aspect p a) == cx /\
  y_min (preserve_aspect p a) == cy /\ y_max (preserve_aspect p a) == cy.
Proof.
  intros Ha Hx0 Hx1 Hy0 Hy1. unfold preserve_aspect.
  assert (Hw : x_max p - x_min p == 0) by lra.
  assert (Hh : y_max p - y_min p == 0) by lra.
  destruct (Qgtb _ a) eqn:E.
  - apply Qgtb_true in E. exfalso.
    rewrite Hw in E. unfold Qdiv in E. rewrite Qmult_0_l in E. lra.
  - simpl. rewrite Hw, Hh. halves. repeat split; lra.
Qed.

Lemma padding_zero_span (b : Bounds) (cx cy : Q) :
  x_min b == cx -> x_max b == cx -> y_min b == cy -> y_max b == cy ->
  x_min (padding b) == cx /\ x_max (padding b) == cx /\
  y_min (padding b) == cy /\ y_max (padding b) == cy.
Proof.
  intros Hx0 Hx1 Hy0 Hy1. unfold padding; simpl. repeat split; lra.
Qed.

Lemma frame_zero_span (xs ys : list Q) (cx cy : Q) (width height : Z) :
  (0 < width)%Z -> (0 < height)%Z -> xs <> [] -> ys <> [] ->
  Forall (fun x => x == cx) xs -> Forall (fun y => y == cy) ys ->
  x_min (frame xs ys width height) == cx /\ y_min (frame xs ys width height) == cy.
Proof.
  intros Hw Hh Hx Hy Hcx Hcy.
  destruct (scene_bounds_constant xs ys cx cy Hx Hy Hcx Hcy) as (S1 & S2 & S3 & S4).
  unfold frame.
  destruct (preserve_aspect_zero_span (padding (scene_bounds xs ys))
              (inject_Z width / inject_Z height) cx cy) as (P1 & _ & P3 & _).
  - apply image_aspect_pos; assumption.
  - apply (padding_zero_span _ cx cy S1 S2 S3 S4).
  - apply (padding_zero_span _ cx cy S1 S2 S3 S4).
  - apply (padding_zero_span _ cx cy S1 S2 S3 S4).
  - apply (padding_zero_span _ cx cy S1 S2 S3 S4).
  - split; assumption.
Qed.

Lemma project_at_window_corner (b : Bounds) (width height : Z) (s : Splat) :
  pt_x s == x_min b -> pt_y s == y_min b ->
  px (project b width height s) = 0%Z /\ py (project b width height s) = 0%Z.
Proof.
  intros Hx Hy. unfold project; simpl.
  split; apply astype_int_Qeq_0.
  - assert (E : pt_x s - x_min b == 0) by lra.
    rewrite E. unfold Qdiv. rewrite !Qmult_0_l. reflexivity.
  - assert (E : pt_y s - y_min b == 0) by lra.
    rewrite E. unfold Qdiv. rewrite !Qmult_0_l. reflexivity.
Qed.

Lemma take_order_nil {A : Type} (order : list nat) : take_order (@nil A) order = [].
Proof.
  unfold take_order. induction order as [| i order IH]; simpl; [reflexivity |].
  rewrite IH. destruct i; reflexivity.
Qed.

Lemma splat_step_outside_box (np : NumPy) (width height : Z) (cv : Canvas) (s : Projected)
    (y x : Z) :
  in_box (bounding_box width height s) y x = false ->
  (forall ch, img (splat_step np width height cv s) y x ch = img cv y x ch) /\
  alpha_buf (splat_step np width height cv s) y x = alpha_buf cv y x.
Proof.
  intro H. destruct (splat_step_cases np width height cv s) as [E | E]; rewrite E.
  - split; reflexivity.
  - unfold update; simpl. rewrite H. simpl. split; reflexivity.
Qed.

Lemma composite_outside_boxes (np : NumPy) (width height : Z) (l : list Projected) (y x : Z) :
  Forall (fun s => in_box (bounding_box width height s) y x = false) l ->
  forall cv,
    (forall ch, img (composite np width height l cv) y x ch = img cv y x ch) /\
    alpha_buf (composite np width height l cv) y x = alpha_buf cv y x.
Proof.
  unfold composite. induction 1 as [| s l Hs Hl IH]; intro cv; simpl.
  - split; reflexivity.
  - destruct (IH (splat_step np width height cv s)) as [I1 I2].
    destruct (splat_step_outside_box np width height cv s y x Hs) as [S1 S2].
    split.
    + intro ch. rewrite I1. apply S1.
    + rewrite I2. exact S2.
Qed.

Lemma box_of_corner_splat (width height : Z) (s : Projected) (y x : Z) :
  px s = 0%Z -> py s = 0%Z -> (pixel_radii s <= 12)%Z -> (12 < x \/ 12 < y)%Z ->
  in_box (bounding_box width height s) y x = false.
Proof.
  intros Hx Hy Hr Hout. unfold in_box, bounding_box; simpl. rewrite Hx, Hy.
  destruct Hout as [K | K].
  - assert (E : (x <? Z.min width (0 + pixel_radii s + 1))%Z = false)
      by (apply Z.ltb_ge; lia).
    rewrite E. apply andb_false_r.
  - assert (E : (y <? Z.min height (0 + pixel_radii s + 1))%Z = false)
      by (apply Z.ltb_ge; lia).
    rewrite E. rewrite andb_false_r. reflexivity.
Qed.

(** The three guarded divisors of lines 81, 96, 102 and 103 are at least
    [1e-8] for every array of points and positive image dimensions. *)
Lemma guarded_divisors (xs ys : list Q) (width height : Z) :
  (0 < width)%Z -> (0 < height)%Z ->
  eps <= y_max (padding (scene_bounds xs ys)) - y_min (padding (scene_bounds xs ys)) + eps /\
  eps <= x_max (frame xs ys width height) - x_min (frame xs ys width height) + eps /\
  eps <= y_max (frame xs ys width height) - y_min (frame xs ys width height) + eps.
Proof.
  intros Hw Hh.
  pose proof (image_aspect_pos width height Hw Hh) as Ha.
  assert (Hx : x_min (scene_bounds xs ys) <= x_max (scene_bounds xs ys))
    by (apply percentile_monotone; lra).
  assert (Hy : y_min (scene_bounds xs ys) <= y_max (scene_bounds xs ys))
    by (apply percentile_monotone; lra).
  assert (Hpx : x_min (padding (scene_bounds xs ys)) <= x_max (padding (scene_bounds xs ys))).
  { generalize dependent (scene_bounds xs ys). intros b Hbx Hby.
    unfold padding; simpl. lra. }
  assert (Hpy : y_min (padding (scene_bounds xs ys)) <= y_max (padding (scene_bounds xs ys))).
  { generalize dependent (scene_bounds xs ys). intros b Hbx Hby _.
    unfold padding; simpl. lra. }
  unfold frame.
  generalize dependent (padding (scene_bounds xs ys)). intros p Hpx Hpy.
  set (a := inject_Z width / inject_Z height) in *.
  split; [lra |].
  destruct (preserve_aspect_vertical_grows p a Ha Hpy) as [V1 V2].
  split; [| lra].
  unfold preserve_aspect. destruct (Qgtb _ a); simpl.
  - lra.
  - assert (K : 0 <= (y_max p - y_min p) * a) by nra. halves. lra.
Qed.

Lemma render_splat_returns (np : NumPy) (v : list Vertex) (width height : Z)
    (angle_deg : Q) :
  (0 < width)%Z -> (0 < height)%Z ->
  rotate np angle_deg (filter_low_opacity (map (decode np) v)) <> [] \/
  np_percentile_empty_raises np = false ->
  render_splat np v width height angle_deg =
  inr {| im_height := height; im_width := width;
         im_data := fun y x ch =>
           quantize (img (composite np width height
                            (sorted_splats np v width height angle_deg) zeros) y x ch) |}.
Proof.
  intros Hw Hh Hok. unfold render_splat.
  assert (E0 : (height =? 0)%Z = false) by (apply Z.eqb_neq; lia).
  assert (E1 : ((width <? 0) || (height <? 0))%Z = false).
  { apply orb_false_iff. split; apply Z.ltb_ge; lia. }
  destruct (rotate np angle_deg (filter_low_opacity (map (decode np) v))) as [| s l].
  - destruct Hok as [K | K]; [contradiction |]. rewrite K, E0, E1. reflexivity.
  - rewrite E0, E1. reflexivity.
Qed.

Lemma sorted_splats_no_survivor (np : NumPy) (v : list Vertex) (width height : Z)
    (angle_deg : Q) :
  rotate np angle_deg (filter_low_opacity (map (decode np) v)) = [] ->
  sorted_splats np v width height angle_deg = [].
Proof.
  intro H. unfold sorted_splats. rewrite H. simpl. unfold depth_sort.
  apply take_order_nil.
Qed.

(** In a scene whose surviving points share their x and their y, every
    splat is projected to pixel (0, 0), with a radius of at most 12. *)
Lemma zero_span_splats_at_origin (np : NumPy) (v : list Vertex) (width height : Z)
    (angle_deg cx cy : Q) :
  (0 < width)%Z -> (0 < height)%Z ->
  rotate np angle_deg (filter_low_opacity (map (decode np) v)) <> [] ->
  Forall (fun s => pt_x s == cx /\ pt_y s == cy)
         (rotate np angle_deg (filter_low_opacity (map (decode np) v))) ->
  Forall (fun q => px q = 0%Z /\ py q = 0%Z /\ (pixel_radii q <= 12)%Z)
         (sorted_splats np v width height angle_deg).
Proof.
  intros Hw Hh Hne Hc. apply Forall_forall. intros q Hq.
  apply sorted_splats_from_projection in Hq.
  remember (rotate np angle_deg (filter_low_opacity (map (decode np) v))) as splats.
  destruct Hq as (s & Hs & ->).
  assert (Hxs : Forall (fun x => x == cx) (map pt_x splats)).
  { apply Forall_map. apply (Forall_impl _ (fun s H => proj1 H) Hc). }
  assert (Hys : Forall (fun y => y == cy) (map pt_y splats)).
  { apply Forall_map. apply (Forall_impl _ (fun s H => proj2 H) Hc). }
  assert (Hxn : map pt_x splats <> []) by (destruct splats; [contradiction | discriminate]).
  assert (Hyn : map pt_y splats <> []) by (destruct splats; [contradiction | discriminate]).
  destruct (frame_zero_span _ _ cx cy width height Hw Hh Hxn Hyn Hxs Hys) as [F1 F2].
  rewrite Forall_forall in Hc. destruct (Hc s Hs) as [S1 S2].
  destruct (project_at_window_corner
              (frame (map pt_x splats) (map pt_y splats) width height) width height s)
    as [P1 P2].
  - rewrite S1, F1. reflexivity.
  - rewrite S2, F2. reflexivity.
  - split; [exact P1 |]. split; [exact P2 |]. apply pixel_radius_range.
Qed.

(** The render of the single point [vertex0] at 1 x 1: the bounding box
    has zero span, the splat lands on pixel (0, 0) with opacity 0.5 and
    grey 0.5, and the pixel ends as (63, 63, 63), not black.  [np.exp] is
    only applied to 0 here. *)
Lemma zero_span_scene_is_drawn :
  x_min (scene_bounds [v_x vertex0] [v_y vertex0])
    == x_max (scene_bounds [v_x vertex0] [v_y vertex0]) /\
  y_min (scene_bounds [v_x vertex0] [v_y vertex0])
    == y_max (scene_bounds [v_x vertex0] [v_y vertex0]) /\
  exists im,
    render_splat numpy_model [vertex0] 1 1 0 = inr im /\
    im_data im 0 0 0%nat = 63%Z /\ im_data im 0 0 1%nat = 63%Z /\
    im_data im 0 0 2%nat = 63%Z.
Proof.
  split; [vm_compute; reflexivity |]. split; [vm_compute; reflexivity |].
  eexists. split; [reflexivity |].
  repeat split; vm_compute; reflexivity.
Qed.

(** C3, as the code has it.  For positive image dimensions:
    - the guarded divisors are at least 1e-8, whatever the points;
    - when no splat survives the filter, the loop body never runs: where
      [np.percentile] raises on the empty array the render fails with that
      error, and where it returns the canvas is black everywhere;
    - when some splat survives the render raises no error and hands an
      image of the requested size to the writer;
    - when the surviving points share their x and their y (a bounding box
      of zero span), every splat is drawn at pixel (0, 0) with a radius of
      at most 12, so the canvas is black at the pixels farther than 12
      from the origin along x or y, and in general not black near it. *)
Theorem degenerate_scene_render (np : NumPy) (v : list Vertex) (width height : Z)
    (angle_deg : Q) :
  (0 < width)%Z -> (0 < height)%Z ->
  let splats := rotate np angle_deg (filter_low_opacity (map (decode np) v)) in
  let p := padding (scene_bounds (map pt_x splats) (map pt_y splats)) in
  let b := frame (map pt_x splats) (map pt_y splats) width height in
  (eps <= y_max p - y_min p + eps /\
   eps <= x_max b - x_min b + eps /\
   eps <= y_max b - y_min b + eps) /\
  (splats = [] ->
   (np_percentile_empty_raises np = true ->
    render_splat np v width height angle_deg = inl PercentileError) /\
   (np_percentile_empty_raises np = false ->
    exists im,
      render_splat np v width height angle_deg = inr im /\
      im_width im = width /\ im_height im = height /\
      forall y x ch, im_data im y x ch = 0%Z)) /\
  (splats <> [] ->
   exists im,
     render_splat np v width height angle_deg = inr im /\
     im_width im = width /\ im_height im = height) /\
  (forall cx cy,
      splats <> [] ->
      Forall (fun s => pt_x s == cx /\ pt_y s == cy) splats ->
      Forall (fun q => px q = 0%Z /\ py q = 0%Z /\ (pixel_radii q <= 12)%Z)
             (sorted_splats np v width height angle_deg) /\
      exists im,
        render_splat np v width height angle_deg = inr im /\
        forall y x ch, (12 < x \/ 12 < y)%Z -> im_data im y x ch = 0%Z).
Proof.
  intros Hw Hh splats p b.
  split; [apply guarded_divisors; assumption |].
  split; [| split].
  - intro Hs. split; intro Hflag.
    + unfold render_splat. fold splats. rewrite Hs, Hflag. reflexivity.
    + rewrite (render_splat_returns np v width height angle_deg Hw Hh (or_intror Hflag)).
      eexists. split; [reflexivity |]. simpl.
      split; [reflexivity |]. split; [reflexivity |].
      intros y x ch. rewrite (sorted_splats_no_survivor np v width height angle_deg Hs).
      reflexivity.
  - intro Hne.
    rewrite (render_splat_returns np v width height angle_deg Hw Hh (or_introl Hne)).
    eexists. split; [reflexivity |]. split; reflexivity.
  - intros cx cy Hne Hc.
    pose proof (zero_span_splats_at_origin np v width height angle_deg cx cy
                  Hw Hh Hne Hc) as Hz.
    split; [exact Hz |].
    rewrite (render_splat_returns np v width height angle_deg Hw Hh (or_introl Hne)).
    eexists. split; [reflexivity |]. simpl. intros y x ch Hout.
    destruct (composite_outside_boxes np width height
                (sorted_splats np v width height angle_deg) y x) with (cv := zeros)
      as [I _].
    + apply (Forall_impl _ (fun q (H : px q = 0%Z /\ py q = 0%Z /\ (pixel_radii q <= 12)%Z) =>
               box_of_corner_splat width height q y x
                 (proj1 H) (proj1 (proj2 H)) (proj2 (proj2 H)) Hout) Hz).
    + rewrite I. reflexivity.
Qed.

Lemma degenerate_scene_render_witness :
  (0 < 1)%Z /\
  rotate numpy_model 0 (filter_low_opacity (map (decode numpy_model) [vertex0])) <> [] /\
  exists im, render_splat numpy_model [vertex0] 1 1 0 = inr im /\
             im_width im = 1%Z /\ im_height im = 1%Z.
Proof.
  split; [lia |].
  split; [vm_compute; discriminate |].
  apply (degenerate_scene_render numpy_model [vertex0] 1 1 0 ltac:(lia) ltac:(lia)).
  vm_compute; discriminate.
Defined.

(** * Further properties of the renderer *)

(** ** Finalizer *)

Lemma clip_monotone (q q' lo hi : Q) : q <= q' -> clip q lo hi <= clip q' lo hi.
Proof.
  intro H. unfold clip, Qminimum, Qmaximum.
  destruct (Qlt_le_dec q lo); destruct (Qlt_le_dec q' lo);
    repeat match goal with |- context [Qlt_le_dec ?a ?b] => destruct (Qlt_le_dec a b) end;
    lra.
Qed.

Lemma quantize_floor (q : Q) : quantize q = Qfloor (clip q 0 1 * 255).
Proof.
  unfold quantize. apply astype_int_floor.
  pose proof (clip_range q 0 1) as H. lra.
Qed.

Lemma quantize_range (q : Q) : (0 <= quantize q <= 255)%Z.
Proof.
  rewrite quantize_floor.
  assert (H : 0 <= clip q 0 1 <= 1) by (apply clip_range; lra).
  split.
  - apply (Qfloor_resp_le 0 (clip q 0 1 * 255)). lra.
  - apply (Qfloor_resp_le (clip q 0 1 * 255) 255). lra.
Qed.

Lemma render_splat_inr (np : NumPy) (v : list Vertex) (width height : Z) (angle_deg : Q)
    (im : Image) :
  render_splat np v width height angle_deg = inr im ->
  im = {| im_height := height; im_width := width;
          im_data := fun y x ch =>
            quantize (img (composite np width height
                             (sorted_splats np v width height angle_deg) zeros) y x ch) |}.
Proof.
  unfold render_splat.
  destruct (match rotate np angle_deg (filter_low_opacity (map (decode np) v)) with
            | [] => np_percentile_empty_raises np
            | _ :: _ => false
            end); [discriminate |].
  destruct (height =? 0)%Z; [discriminate |].
  destruct ((width <? 0) || (height <? 0))%Z; [discriminate |].
  intro H. injection H as <-. reflexivity.
Qed.

(** The finalizer of line 168 produces bytes: every quantised channel is
    between 0 and 255, a colour at or below 0 gives 0, a colour at or
    above 1 gives 255, a brighter colour never gives a smaller byte, and
    every channel of every image that [render_splat] hands to the writer
    is such a byte, of the requested size. *)
Theorem quantize_gives_bytes (q : Q) :
  (0 <= quantize q <= 255)%Z /\
  (q <= 0 -> quantize q = 0%Z) /\
  (1 <= q -> quantize q = 255%Z) /\
  (forall q', q <= q' -> (quantize q <= quantize q')%Z) /\
  (forall np v width height angle_deg im,
      render_splat np v width height angle_deg = inr im ->
      im_width im = width /\ im_height im = height /\
      forall y x ch, (0 <= im_data im y x ch <= 255)%Z).
Proof.
  split; [apply quantize_range |]. split; [| split; [| split]].
  - intro H. rewrite quantize_floor.
    assert (E : clip q 0 1 * 255 == 0).
    { unfold clip, Qminimum, Qmaximum.
      destruct (Qlt_le_dec q 0); destruct (Qlt_le_dec 1 _); lra. }
    rewrite E. reflexivity.
  - intro H. rewrite quantize_floor.
    assert (E : clip q 0 1 * 255 == 255).
    { unfold clip, Qminimum, Qmaximum.
      destruct (Qlt_le_dec q 0); destruct (Qlt_le_dec 1 _); lra. }
    rewrite E. reflexivity.
  - intros q' H. rewrite !quantize_floor. apply Qfloor_resp_le.
    pose proof (clip_monotone q q' 0 1 H). lra.
  - intros np v width height angle_deg im H.
    apply render_splat_inr in H. subst im. simpl.
    split; [reflexivity |]. split; [reflexivity |].
    intros y x ch. apply quantize_range.
Qed.

(** ** A vertex below the opacity threshold *)

Lemma render_splat_depends_on_survivors (np : NumPy) (va vb : list Vertex)
    (width height : Z) (angle_deg : Q) :
  filter_low_opacity (map (decode np) va) = filter_low_opacity (map (decode np) vb) ->
  render_splat np va width height angle_deg = render_splat np vb width height angle_deg.
Proof.
  intro H. unfold render_splat, sorted_splats. rewrite H. reflexivity.
Qed.

(** A vertex whose decoded opacity is at most 0.02 leaves no trace:
    wherever it is inserted among the vertices, the render, error or
    image, is the one obtained without it.  It is dropped before the
    percentiles, so it does not move the viewport either. *)
Theorem low_opacity_vertex_is_ignored (np : NumPy) (v1 v2 : list Vertex) (u : Vertex)
    (width height : Z) (angle_deg : Q) :
  opacity (decode np u) <= 2 # 100 ->
  render_splat np (v1 ++ u :: v2) width height angle_deg =
  render_splat np (v1 ++ v2) width height angle_deg /\
  sorted_splats np (v1 ++ u :: v2) width height angle_deg =
  sorted_splats np (v1 ++ v2) width height angle_deg.
Proof.
  intro Hu.
  assert (E : filter_low_opacity (map (decode np) (v1 ++ u :: v2)) =
              filter_low_opacity (map (decode np) (v1 ++ v2))).
  { unfold filter_low_opacity. rewrite !map_app, !filter_app. simpl.
    assert (Hm : mask (decode np u) = false) by (apply mask_false; exact Hu).
    rewrite Hm. reflexivity. }
  split.
  - apply render_splat_depends_on_survivors. exact E.
  - unfold sorted_splats. rewrite E. reflexivity.
Qed.

Lemma faint_vertex_opacity : opacity (decode numpy_model faint_vertex) <= 2 # 100.
Proof. vm_compute. discriminate. Qed.

Lemma low_opacity_vertex_is_ignored_witness :
  opacity (decode numpy_model faint_vertex) <= 2 # 100 /\
  render_splat numpy_model ([vertex0] ++ faint_vertex :: []) 3 3 0 =
  render_splat numpy_model ([vertex0] ++ []) 3 3 0.
Proof.
  split; [exact faint_vertex_opacity |].
  apply (low_opacity_vertex_is_ignored numpy_model [vertex0] [] faint_vertex 3 3 0
           faint_vertex_opacity).
Defined.

(** ** The margin filter of lines 105-110 *)

Lemma invalid_splat_has_empty_box (width height : Z) (q : Projected) :
  (pixel_radii q <= 12)%Z -> valid width height q = false ->
  box_empty (bounding_box width height q) = true.
Proof.
  intros Hr Hv. unfold valid, max_r in Hv. unfold box_empty, bounding_box; simpl.
  apply orb_true_iff.
  repeat (apply andb_false_iff in Hv; destruct Hv as [Hv | Hv]).
  - apply Z.leb_gt in Hv. right. apply Z.leb_le. lia.
  - apply Z.ltb_ge in Hv. right. apply Z.leb_le. lia.
  - apply Z.leb_gt in Hv. left. apply Z.leb_le. lia.
  - apply Z.ltb_ge in Hv. left. apply Z.leb_le. lia.
Qed.

(** Dropping the splats whose centre is more than 12 pixels outside the
    canvas changes nothing: with radii of at most 12, which is what the
    projector produces, the compositor gives the same canvas on a list of
    splats and on that list filtered by [valid]. *)
Theorem margin_filter_is_neutral (np : NumPy) (width height : Z) (l : list Projected) :
  Forall (fun q => (pixel_radii q <= 12)%Z) l ->
  (forall cv,
      composite np width height (filter (valid width height) l) cv =
      composite np width height l cv) /\
  (forall b s, (pixel_radii (project b width height s) <= 12)%Z).
Proof.
  intro Hl. split.
  - unfold composite. induction Hl as [| q l Hq Hl IH]; intro cv; simpl.
    + reflexivity.
    + destruct (valid width height q) eqn:Ev; simpl.
      * apply IH.
      * rewrite IH. f_equal. unfold splat_step.
        rewrite (invalid_splat_has_empty_box width height q Hq Ev). reflexivity.
  - intros b s. unfold project; simpl. apply pixel_radius_range.
Qed.

Lemma margin_filter_is_neutral_witness :
  Forall (fun q => (pixel_radii q <= 12)%Z) [splat_red; far_splat] /\
  composite numpy_model 4 4 (filter (valid 4 4) [splat_red; far_splat]) zeros =
  composite numpy_model 4 4 [splat_red; far_splat] zeros.
Proof.
  assert (H : Forall (fun q => (pixel_radii q <= 12)%Z) [splat_red; far_splat])
    by (repeat constructor; simpl; lia).
  split; [exact H |].
  apply (margin_filter_is_neutral numpy_model 4 4 [splat_red; far_splat] H).
Defined.

(** ** The compositor, one splat at a time *)

Lemma In_arange (lo hi k : Z) : (lo <= k < hi)%Z -> In k (arange lo hi).
Proof.
  intro H. unfold arange. apply in_map_iff.
  exists (Z.to_nat (k - lo)). split; [lia |]. apply in_seq. lia.
Qed.

Lemma mask_any_false (np : NumPy) (cv : Canvas) (s : Projected) (b : Box) (y x : Z) :
  mask_any np cv s b = false -> in_box b y x = true -> update_mask np cv s y x = false.
Proof.
  unfold mask_any, in_box. intros Hany Hin.
  repeat (apply andb_true_iff in Hin; destruct Hin as [Hin ?]).
  apply Z.leb_le in Hin.
  repeat match goal with
         | H : (_ <? _)%Z = true |- _ => apply Z.ltb_lt in H
         | H : (_ <=? _)%Z = true |- _ => apply Z.leb_le in H
         end.
  destruct (update_mask np cv s y x) eqn:E; [| reflexivity].
  assert (K : existsb
                (fun y' => existsb (fun x' => update_mask np cv s y' x')
                                   (arange (x0 b) (x1 b)))
                (arange (y0 b) (y1 b)) = true).
  { apply existsb_exists. exists y. split; [apply In_arange; lia |].
    apply existsb_exists. exists x. split; [apply In_arange; lia | exact E]. }
  rewrite K in Hany. discriminate Hany.
Qed.

(** The test [if not update_mask.any(): continue] of line 159 is a pure
    shortcut: whether it fires or not, the loop body leaves in every cell
    of both accumulators the value that the masked additions of lines
    162-166 would leave. *)
Theorem any_shortcut_is_neutral (np : NumPy) (width height : Z) (cv : Canvas)
    (s : Projected) (y x : Z) :
  alpha_buf (full_update np width height cv s) y x ==
  alpha_buf (update np cv s (bounding_box width height s)) y x /\
  forall ch,
    img (full_update np width height cv s) y x ch ==
    img (update np cv s (bounding_box width height s)) y x ch.
Proof.
  unfold full_update.
  destruct (mask_any np cv s (bounding_box width height s)) eqn:Ea; simpl.
  - split; [reflexivity | intro ch; reflexivity].
  - destruct (in_box (bounding_box width height s) y x) eqn:Ei; simpl.
    + rewrite (mask_any_false np cv s _ y x Ea Ei). unfold mask_val.
      split; [ring | intro ch; destruct (ch <? 3)%nat; ring].
    + split; [reflexivity | intro ch; reflexivity].
Qed.

Lemma in_box_inside (width height : Z) (s : Projected) (y x : Z) :
  in_box (bounding_box width height s) y x = true ->
  (0 <= y < height /\ 0 <= x < width /\
   Z.abs (y - py s) <= pixel_radii s /\ Z.abs (x - px s) <= pixel_radii s)%Z.
Proof.
  unfold in_box, bounding_box; simpl. intro Hin.
  repeat (apply andb_true_iff in Hin; destruct Hin as [Hin ?]).
  apply Z.leb_le in Hin.
  repeat match goal with
         | H : (_ <? _)%Z = true |- _ => apply Z.ltb_lt in H
         | H : (_ <=? _)%Z = true |- _ => apply Z.leb_le in H
         end.
  lia.
Qed.

(** A splat writes only inside its bounding box: a cell outside the
    canvas, or farther than the pixel radius from the splat's centre along
    x or along y, keeps its colour and its alpha through the iteration. *)
Theorem splat_step_is_local (np : NumPy) (width height : Z) (cv : Canvas)
    (s : Projected) (y x : Z) :
  (y < 0 \/ height <= y \/ x < 0 \/ width <= x \/
   pixel_radii s < Z.abs (y - py s) \/ pixel_radii s < Z.abs (x - px s))%Z ->
  alpha_buf (splat_step np width height cv s) y x = alpha_buf cv y x /\
  forall ch, img (splat_step np width height cv s) y x ch = img cv y x ch.
Proof.
  intro Hout.
  assert (Hb : in_box (bounding_box width height s) y x = false).
  { destruct (in_box (bounding_box width height s) y x) eqn:E; [| reflexivity].
    apply in_box_inside in E. lia. }
  destruct (splat_step_outside_box np width height cv s y x Hb) as [Hi Ha].
  split; [exact Ha | exact Hi].
Qed.

Lemma splat_step_is_local_witness :
  (1 < Z.abs (3 - py splat_red))%Z /\
  alpha_buf (splat_step numpy_model 4 4 zeros splat_red) 3 0 = alpha_buf zeros 3 0.
Proof.
  assert (H : (pixel_radii splat_red < Z.abs (3 - py splat_red))%Z) by (simpl; lia).
  split; [exact H |].
  apply (splat_step_is_local numpy_model 4 4 zeros splat_red 3 0).
  right; right; right; right; left. exact H.
Defined.

(** What one iteration does to the alpha of a cell. *)
Lemma splat_step_alpha_cases (np : NumPy) (width height : Z) (cv : Canvas)
    (s : Projected) (y x : Z) :
  alpha_buf (splat_step np width height cv s) y x = alpha_buf cv y x \/
  (alpha_buf (splat_step np width height cv s) y x =
   alpha_buf cv y x + effective np cv s y x * mask_val (update_mask np cv s y x) /\
   forall ch,
     img (splat_step np width height cv s) y x ch =
     if (ch <? 3)%nat
     then img cv y x ch +
          channel (p_colors s) ch * effective np cv s y x *
          mask_val (update_mask np cv s y x)
     else img cv y x ch).
Proof.
  destruct (splat_step_cases np width height cv s) as [E | E]; rewrite E.
  - left. reflexivity.
  - unfold update; simpl.
    destruct (in_box (bounding_box width height s) y x); simpl.
    + right. split; [reflexivity | intro ch; reflexivity].
    + left. reflexivity.
Qed.

(** An iteration raises the alpha of a cell by nothing or by more than
    0.001, and never beyond 1: contributions of at most 0.001 are
    dropped by the mask of line 158. *)
Theorem alpha_increment_is_zero_or_above_threshold (np : NumPy) (width height : Z)
    (cv : Canvas) (s : Projected) (y x : Z) :
  exp_laws np -> opacity_ok s -> alpha_in_range cv ->
  alpha_buf (splat_step np width height cv s) y x == alpha_buf cv y x \/
  (1 # 1000 < alpha_buf (splat_step np width height cv s) y x - alpha_buf cv y x /\
   alpha_buf (splat_step np width height cv s) y x <= 1).
Proof.
  intros Hnp Hs Hcv.
  pose proof (effective_range np cv s y x Hnp Hs (Hcv y x)) as [He0 He1].
  destruct (splat_step_alpha_cases np width height cv s y x) as [E | [E _]]; rewrite E.
  - left. reflexivity.
  - destruct (update_mask np cv s y x) eqn:Em; unfold mask_val.
    + right. apply Qgtb_true in Em. split; lra.
    + left. ring.
Qed.

Lemma alpha_increment_is_zero_or_above_threshold_witness :
  exp_laws numpy_model /\ opacity_ok splat_red /\ alpha_in_range zeros /\
  (alpha_buf (splat_step numpy_model 1 1 zeros splat_red) 0 0 == alpha_buf zeros 0 0 \/
   (1 # 1000 < alpha_buf (splat_step numpy_model 1 1 zeros splat_red) 0 0
               - alpha_buf zeros 0 0 /\
    alpha_buf (splat_step numpy_model 1 1 zeros splat_red) 0 0 <= 1)).
Proof.
  assert (Hs : opacity_ok splat_red) by (unfold opacity_ok, in_unit; simpl; lra).
  split; [exact numpy_model_exp_laws |]. split; [exact Hs |].
  split; [exact zeros_alpha_in_range |].
  apply (alpha_increment_is_zero_or_above_threshold numpy_model 1 1 zeros splat_red 0 0
           numpy_model_exp_laws Hs zeros_alpha_in_range).
Defined.

Lemma splat_step_grows (np : NumPy) (width height : Z) (cv : Canvas) (s : Projected) :
  exp_laws np -> opacity_ok s -> color_ok s -> alpha_in_range cv ->
  forall y x,
    alpha_buf cv y x <= alpha_buf (splat_step np width height cv s) y x /\
    forall ch, img cv y x ch <= img (splat_step np width height cv s) y x ch.
Proof.
  intros Hnp Hs Hc Hcv y x.
  pose proof (masked_effective_range np cv s y x Hnp Hs (Hcv y x)) as [He0 He1].
  destruct (splat_step_cases np width height cv s) as [E | E]; rewrite E.
  - split; [lra | intro ch; lra].
  - unfold update; simpl.
    destruct (in_box (bounding_box width height s) y x); simpl.
    + split; [lra |]. intro ch. destruct (ch <? 3)%nat; [| lra].
      destruct (Hc ch) as [Hc0 _].
      set (e := effective np cv s y x * mask_val (update_mask np cv s y x)) in *.
      assert (K : 0 <= channel (p_colors s) ch * e)
        by (apply Qmult_le_0_compat; assumption).
      assert (A : channel (p_colors s) ch * effective np cv s y x *
                  mask_val (update_mask np cv s y x)
                  == channel (p_colors s) ch * e) by (unfold e; ring).
      lra.
    + split; [lra | intro ch; lra].
Qed.

(** Compositing only adds: through any run of splats with opacity and
    colour in [0, 1], started on a canvas whose alpha is in [0, 1], no
    cell of the alpha accumulator and no channel of the colour
    accumulator ever decreases. *)
Theorem compositing_never_darkens (np : NumPy) (width height : Z) (l : list Projected)
    (cv : Canvas) :
  exp_laws np -> Forall opacity_ok l -> Forall color_ok l -> alpha_in_range cv ->
  forall y x,
    alpha_buf cv y x <= alpha_buf (composite np width height l cv) y x /\
    forall ch, img cv y x ch <= img (composite np width height l cv) y x ch.
Proof.
  intros Hnp Hl. revert cv. unfold composite.
  induction Hl as [| s l Hs Hl IH]; intros cv Hc Hcv y x; simpl.
  - split; [lra | intro ch; lra].
  - inversion Hc as [| s' l' Hcs Hcl]; subst.
    destruct (splat_step_grows np width height cv s Hnp Hs Hcs Hcv y x) as [G1 G2].
    destruct (IH (splat_step np width height cv s) Hcl
                (splat_step_alpha_in_range np width height cv s Hnp Hs Hcv) y x)
      as [I1 I2].
    split; [lra |]. intro ch. specialize (G2 ch). specialize (I2 ch). lra.
Qed.

Lemma compositing_never_darkens_witness :
  exp_laws numpy_model /\ Forall opacity_ok [splat_red; splat_blue] /\
  Forall color_ok [splat_red; splat_blue] /\ alpha_in_range zeros /\
  alpha_buf zeros 0 0 <= alpha_buf (composite numpy_model 1 1 [splat_red; splat_blue] zeros) 0 0.
Proof.
  split; [exact numpy_model_exp_laws |].
  split; [exact splat_red_blue_opacity_ok |].
  split; [exact splat_red_blue_color_ok |].
  split; [exact zeros_alpha_in_range |].
  apply (compositing_never_darkens numpy_model 1 1 [splat_red; splat_blue] zeros
           numpy_model_exp_laws splat_red_blue_opacity_ok splat_red_blue_color_ok
           zeros_alpha_in_range 0%Z 0%Z).
Defined.

Lemma saturated_cell_step (np : NumPy) (width height : Z) (cv : Canvas) (s : Projected)
    (y x : Z) :
  exp_laws np -> opacity_ok s -> 999 # 1000 <= alpha_buf cv y x -> alpha_buf cv y x <= 1 ->
  alpha_buf (splat_step np width height cv s) y x == alpha_buf cv y x /\
  forall ch, img (splat_step np width height cv s) y x ch == img cv y x ch.
Proof.
  intros Hnp Hs Hlo Hhi.
  assert (Hr : in_unit (alpha_buf cv y x)) by (unfold in_unit; lra).
  pose proof (effective_range np cv s y x Hnp Hs Hr) as [He0 He1].
  assert (Em : update_mask np cv s y x = false) by (apply Qgtb_false; lra).
  destruct (splat_step_cases np width height cv s) as [E | E]; rewrite E.
  - split; [reflexivity | intro ch; reflexivity].
  - unfold update; simpl. rewrite Em. unfold mask_val.
    destruct (in_box (bounding_box width height s) y x); simpl.
    + split; [ring | intro ch; destruct (ch <? 3)%nat; ring].
    + split; [reflexivity | intro ch; reflexivity].
Qed.

(** A cell whose alpha has reached 0.999 is final: whatever splats of
    opacity in [0, 1] follow, its alpha and its colour keep their value,
    because the budget left, at most 0.001, is below the update
    threshold. *)
Theorem saturated_cell_is_final (np : NumPy) (width height : Z) (l : list Projected)
    (cv : Canvas) (y x : Z) :
  exp_laws np -> Forall opacity_ok l ->
  999 # 1000 <= alpha_buf cv y x -> alpha_buf cv y x <= 1 ->
  alpha_buf (composite np width height l cv) y x == alpha_buf cv y x /\
  forall ch, img (composite np width height l cv) y x ch == img cv y x ch.
Proof.
  intros Hnp Hl. revert cv. unfold composite.
  induction Hl as [| s l Hs Hl IH]; intros cv Hlo Hhi; simpl.
  - split; [reflexivity | intro ch; reflexivity].
  - destruct (saturated_cell_step np width height cv s y x Hnp Hs Hlo Hhi) as [S1 S2].
    destruct (IH (splat_step np width height cv s)) as [I1 I2].
    + rewrite S1. exact Hlo.
    + rewrite S1. exact Hhi.
    + split; [rewrite I1; exact S1 | intro ch; rewrite I2; apply S2].
Qed.

Lemma saturated_cell_is_final_witness :
  exp_laws numpy_model /\ Forall opacity_ok [splat_red; splat_green] /\
  999 # 1000 <= alpha_buf (composite numpy_model 1 1 [splat_blue] zeros) 0 0 /\
  alpha_buf (composite numpy_model 1 1 [splat_blue] zeros) 0 0 <= 1 /\
  alpha_buf (composite numpy_model 1 1 [splat_red; splat_green]
               (composite numpy_model 1 1 [splat_blue] zeros)) 0 0
  == alpha_buf (composite numpy_model 1 1 [splat_blue] zeros) 0 0.
Proof.
  assert (Hl : Forall opacity_ok [splat_red; splat_green])
    by (repeat constructor; unfold opacity_ok, in_unit; simpl; lra).
  assert (Hlo : 999 # 1000 <= alpha_buf (composite numpy_model 1 1 [splat_blue] zeros) 0 0)
    by (vm_compute; discriminate).
  assert (Hhi : alpha_buf (composite numpy_model 1 1 [splat_blue] zeros) 0 0 <= 1)
    by (vm_compute; discriminate).
  split; [exact numpy_model_exp_laws |]. split; [exact Hl |].
  split; [exact Hlo |]. split; [exact Hhi |].
  apply (saturated_cell_is_final numpy_model 1 1 [splat_red; splat_green]
           (composite numpy_model 1 1 [splat_blue] zeros) 0 0
           numpy_model_exp_laws Hl Hlo Hhi).
Defined.

(** ** The over operator at a splat's centre *)

Lemma gauss_at_center (np : NumPy) (s : Projected) :
  (forall t, t == 0 -> np_exp np t == 1) -> gauss np s (py s) (px s) == 1.
Proof.
  intro H0. unfold gauss. apply H0.
  rewrite !Z.sub_diag. simpl. unfold Qdiv. ring.
Qed.

Lemma center_in_box (width height : Z) (s : Projected) :
  (0 <= py s < height)%Z -> (0 <= px s < width)%Z -> (0 <= pixel_radii s)%Z ->
  in_box (bounding_box width height s) (py s) (px s) = true /\
  box_empty (bounding_box width height s) = false.
Proof.
  intros Hy Hx Hr. unfold in_box, box_empty, bounding_box; simpl. split.
  - repeat (apply andb_true_iff; split);
      try (apply Z.leb_le; lia); apply Z.ltb_lt; lia.
  - apply orb_false_iff. split; apply Z.leb_gt; lia.
Qed.

(** One iteration at the centre pixel of a splat that is not skipped. *)
Lemma splat_step_at_center (np : NumPy) (width height : Z) (cv : Canvas) (s : Projected) :
  (forall t, t == 0 -> np_exp np t == 1) ->
  (0 <= py s < height)%Z -> (0 <= px s < width)%Z -> (0 <= pixel_radii s)%Z ->
  alpha_buf cv (py s) (px s) <= 95 # 100 ->
  1 # 1000 < p_opacity s * (1 - alpha_buf cv (py s) (px s)) ->
  alpha_buf (splat_step np width height cv s) (py s) (px s) ==
    alpha_buf cv (py s) (px s) + p_opacity s * (1 - alpha_buf cv (py s) (px s)) /\
  forall ch, (ch < 3)%nat ->
    img (splat_step np width height cv s) (py s) (px s) ch ==
      img cv (py s) (px s) ch +
      channel (p_colors s) ch * (p_opacity s * (1 - alpha_buf cv (py s) (px s))).
Proof.
  intros H0 Hy Hx Hr Ha He.
  destruct (center_in_box width height s Hy Hx Hr) as [Hin Hne].
  pose proof (gauss_at_center np s H0) as Hg.
  assert (Eeff : effective np cv s (py s) (px s)
                 == p_opacity s * (1 - alpha_buf cv (py s) (px s))).
  { unfold effective. rewrite Hg. ring. }
  assert (Em : update_mask np cv s (py s) (px s) = true).
  { unfold update_mask. apply Qgtb_true. rewrite Eeff. exact He. }
  assert (Eany : mask_any np cv s (bounding_box width height s) = true).
  { destruct (mask_any np cv s (bounding_box width height s)) eqn:E; [reflexivity |].
    rewrite (mask_any_false np cv s _ _ _ E Hin) in Em. discriminate Em. }
  assert (Ec : center_opaque width height cv s = false).
  { unfold center_opaque. apply andb_false_iff. right. apply Qgtb_false. exact Ha. }
  unfold splat_step, full_update. rewrite Hne, Ec, Eany. simpl.
  rewrite Hin, Em. unfold mask_val. split.
  - rewrite Eeff. ring.
  - intros ch Hch. apply Nat.ltb_lt in Hch. rewrite Hch. simpl. rewrite Eeff. ring.
Qed.

(** The centre pixel of a splat that lies inside the canvas, through one
    iteration.  If alpha there is above 0.95 the splat is skipped and the
    canvas is unchanged.  Otherwise, if the contribution
    [opacity * (1 - alpha)] is above 0.001, the iteration applies the over
    operator: alpha gains that contribution and each colour channel gains
    [color] times it; if it is at most 0.001 the pixel keeps its values.
    It uses that [np.exp] is 1 at 0. *)
Theorem over_operator_at_center (np : NumPy) (width height : Z) (cv : Canvas)
    (s : Projected) :
  (forall t, t == 0 -> np_exp np t == 1) ->
  (0 <= py s < height)%Z -> (0 <= px s < width)%Z -> (0 <= pixel_radii s)%Z ->
  (95 # 100 < alpha_buf cv (py s) (px s) -> splat_step np width height cv s = cv) /\
  (alpha_buf cv (py s) (px s) <= 95 # 100 ->
   1 # 1000 < p_opacity s * (1 - alpha_buf cv (py s) (px s)) ->
   alpha_buf (splat_step np width height cv s) (py s) (px s) ==
     alpha_buf cv (py s) (px s) + p_opacity s * (1 - alpha_buf cv (py s) (px s)) /\
   forall ch, (ch < 3)%nat ->
     img (splat_step np width height cv s) (py s) (px s) ch ==
       img cv (py s) (px s) ch +
       channel (p_colors s) ch * (p_opacity s * (1 - alpha_buf cv (py s) (px s)))) /\
  (p_opacity s * (1 - alpha_buf cv (py s) (px s)) <= 1 # 1000 ->
   alpha_buf (splat_step np width height cv s) (py s) (px s) == alpha_buf cv (py s) (px s) /\
   forall ch,
     img (splat_step np width height cv s) (py s) (px s) ch == img cv (py s) (px s) ch).
Proof.
  intros H0 Hy Hx Hr. split; [| split].
  - intro Hgt.
    destruct (center_in_box width height s Hy Hx Hr) as [_ Hne].
    unfold splat_step. rewrite Hne.
    assert (Ec : center_opaque width height cv s = true).
    { unfold center_opaque.
      repeat (apply andb_true_iff; split);
        try (apply Z.leb_le; lia); try (apply Z.ltb_lt; lia).
      apply Qgtb_true. exact Hgt. }
    rewrite Ec. reflexivity.
  - intros Ha He. apply splat_step_at_center; assumption.
  - intro Hle.
    assert (Em : update_mask np cv s (py s) (px s) = false).
    { unfold update_mask. apply Qgtb_false. unfold effective.
      rewrite (gauss_at_center np s H0). lra. }
    destruct (splat_step_alpha_cases np width height cv s (py s) (px s)) as [E | [E Ei]].
    + split; [rewrite E; reflexivity |]. intro ch.
      destruct (splat_step_cases np width height cv s) as [K | K]; rewrite K.
      * reflexivity.
      * unfold update; simpl. rewrite Em. unfold mask_val.
        destruct (in_box _ _ _ && (ch <? 3)%nat); ring.
    + split.
      * rewrite E, Em. unfold mask_val. ring.
      * intro ch. rewrite Ei, Em. unfold mask_val. destruct (ch <? 3)%nat; ring.
Qed.

Lemma exp_model_at_0 (t : Q) : t == 0 -> np_exp numpy_model t == 1.
Proof.
  intro H. simpl. unfold exp_model.
  destruct (Qlt_le_dec t 0) as [K | K]; [rewrite H in K; discriminate K | lra].
Qed.

Lemma over_operator_at_center_witness :
  (forall t, t == 0 -> np_exp numpy_model t == 1) /\
  (0 <= py splat_red < 1)%Z /\ (0 <= px splat_red < 1)%Z /\ (0 <= pixel_radii splat_red)%Z /\
  alpha_buf zeros (py splat_red) (px splat_red) <= 95 # 100 /\
  1 # 1000 < p_opacity splat_red * (1 - alpha_buf zeros (py splat_red) (px splat_red)) /\
  alpha_buf (splat_step numpy_model 1 1 zeros splat_red) (py splat_red) (px splat_red) ==
    alpha_buf zeros (py splat_red) (px splat_red) +
    p_opacity splat_red * (1 - alpha_buf zeros (py splat_red) (px splat_red)).
Proof.
  assert (Hy : (0 <= py splat_red < 1)%Z) by (simpl; lia).
  assert (Hx : (0 <= px splat_red < 1)%Z) by (simpl; lia).
  assert (Hr : (0 <= pixel_radii splat_red)%Z) by (simpl; lia).
  assert (Ha : alpha_buf zeros (py splat_red) (px splat_red) <= 95 # 100)
    by (simpl; lra).
  assert (He : 1 # 1000 < p_opacity splat_red *
                          (1 - alpha_buf zeros (py splat_red) (px splat_red)))
    by (simpl; lra).
  repeat (split; [assumption || exact exp_model_at_0 |]).
  apply (over_operator_at_center numpy_model 1 1 zeros splat_red
           exp_model_at_0 Hy Hx Hr); assumption.
Defined.

(** Two splats on one pixel, front first: when the front one has opacity
    [a1] at most 0.95 the pixel ends with alpha [a1 + a2 * (1 - a1)] and
    colour [c1 * a1 + c2 * a2 * (1 - a1)], the closed form of over
    compositing; when [a1] is above 0.95 the second splat is skipped
    altogether and the canvas is the one the first splat alone leaves. *)
Theorem two_coincident_splats (np : NumPy) (width height : Z) (s1 s2 : Projected) :
  (forall t, t == 0 -> np_exp np t == 1) ->
  (0 <= py s1 < height)%Z -> (0 <= px s1 < width)%Z ->
  py s2 = py s1 -> px s2 = px s1 ->
  (0 <= pixel_radii s1)%Z -> (0 <= pixel_radii s2)%Z ->
  1 # 1000 < p_opacity s1 ->
  (p_opacity s1 <= 95 # 100 -> 1 # 1000 < p_opacity s2 * (1 - p_opacity s1) ->
   alpha_buf (composite np width height [s1; s2] zeros) (py s1) (px s1) ==
     p_opacity s1 + p_opacity s2 * (1 - p_opacity s1) /\
   forall ch, (ch < 3)%nat ->
     img (composite np width height [s1; s2] zeros) (py s1) (px s1) ch ==
       channel (p_colors s1) ch * p_opacity s1 +
       channel (p_colors s2) ch * p_opacity s2 * (1 - p_opacity s1)) /\
  (95 # 100 < p_opacity s1 ->
   composite np width height [s1; s2] zeros = composite np width height [s1] zeros).
Proof.
  intros H0 Hy Hx Ey Ex Hr1 Hr2 Ha1.
  assert (Hz : alpha_buf zeros (py s1) (px s1) <= 95 # 100) by (simpl; lra).
  assert (He : 1 # 1000 < p_opacity s1 * (1 - alpha_buf zeros (py s1) (px s1)))
    by (simpl; lra).
  destruct (splat_step_at_center np width height zeros s1 H0 Hy Hx Hr1 Hz He) as [A1 I1].
  simpl in A1.
  assert (A1' : alpha_buf (splat_step np width height zeros s1) (py s1) (px s1)
                == p_opacity s1) by (rewrite A1; ring).
  split.
  - intros Hle He2. unfold composite; simpl.
    destruct (splat_step_at_center np width height
                (splat_step np width height zeros s1) s2 H0) as [A2 I2];
      try (rewrite ?Ey, ?Ex; assumption).
    + rewrite Ey, Ex, A1'. exact Hle.
    + rewrite Ey, Ex, A1'. exact He2.
    + rewrite Ey, Ex in A2. split.
      * rewrite A2, A1'. ring.
      * intros ch Hch. specialize (I2 ch Hch). rewrite Ey, Ex in I2.
        rewrite I2, A1', (I1 ch Hch). simpl. ring.
  - intro Hgt. unfold composite; simpl.
    assert (Ec : center_opaque width height (splat_step np width height zeros s1) s2 = true).
    { unfold center_opaque. rewrite Ey, Ex.
      repeat (apply andb_true_iff; split);
        try (apply Z.leb_le; lia); try (apply Z.ltb_lt; lia).
      apply Qgtb_true. rewrite A1'. exact Hgt. }
    unfold splat_step at 1. rewrite Ec.
    destruct (box_empty (bounding_box width height s2)); reflexivity.
Qed.

Lemma two_coincident_splats_witness :
  (forall t, t == 0 -> np_exp numpy_model t == 1) /\
  (0 <= py splat_red < 1)%Z /\ (0 <= px splat_red < 1)%Z /\
  py splat_blue = py splat_red /\ px splat_blue = px splat_red /\
  (0 <= pixel_radii splat_red)%Z /\ (0 <= pixel_radii splat_blue)%Z /\
  1 # 1000 < p_opacity splat_red /\
  95 # 100 < p_opacity splat_red /\
  composite numpy_model 1 1 [splat_red; splat_blue] zeros =
  composite numpy_model 1 1 [splat_red] zeros.
Proof.
  assert (Hy : (0 <= py splat_red < 1)%Z) by (simpl; lia).
  assert (Hx : (0 <= px splat_red < 1)%Z) by (simpl; lia).
  assert (Hr1 : (0 <= pixel_radii splat_red)%Z) by (simpl; lia).
  assert (Hr2 : (0 <= pixel_radii splat_blue)%Z) by (simpl; lia).
  assert (Ha : 1 # 1000 < p_opacity splat_red) by (simpl; lra).
  assert (Hg : 95 # 100 < p_opacity splat_red) by (simpl; lra).
  split; [exact exp_model_at_0 |].
  repeat (split; [assumption || reflexivity |]).
  apply (two_coincident_splats numpy_model 1 1 splat_red splat_blue
           exp_model_at_0 Hy Hx eq_refl eq_refl Hr1 Hr2 Ha).
  exact Hg.
Defined.

(** ** Projection to pixels *)

Lemma astype_int_opp (q : Q) : astype_int (- q) = (- astype_int q)%Z.
Proof.
  destruct q as [n d]. unfold astype_int; simpl. apply Z.quot_opp_l. lia.
Qed.

Lemma astype_int_nonpos (q : Q) : q <= 0 -> (astype_int q <= 0)%Z /\ astype_int q = Qceiling q.
Proof.
  intro H.
  assert (E : astype_int q = (- Qfloor (- q))%Z).
  { rewrite <- (astype_int_floor (- q)) by lra. rewrite astype_int_opp. lia. }
  split; [| exact E].
  rewrite E. pose proof (Qfloor_resp_le 0 (- q)) as K.
  assert (K' : (Qfloor 0 <= Qfloor (- q))%Z) by (apply K; lra).
  change (Qfloor 0) with 0%Z in K'. lia.
Qed.

(** Truncation toward zero keeps the order. *)
Lemma astype_int_monotone (q q' : Q) : q <= q' -> (astype_int q <= astype_int q')%Z.
Proof.
  intro H.
  destruct (Qlt_le_dec q 0) as [Hq | Hq]; destruct (Qlt_le_dec q' 0) as [Hq' | Hq'].
  - destruct (astype_int_nonpos q) as [_ E]; [lra |].
    destruct (astype_int_nonpos q') as [_ E']; [lra |].
    rewrite E, E'. apply Qceiling_resp_le. exact H.
  - destruct (astype_int_nonpos q) as [L _]; [lra |].
    rewrite (astype_int_floor q' Hq').
    pose proof (Qfloor_resp_le 0 q' Hq') as K. change (Qfloor 0) with 0%Z in K. lia.
  - lra.
  - rewrite (astype_int_floor q Hq), (astype_int_floor q') by lra.
    apply Qfloor_resp_le. exact H.
Qed.

Lemma scaled_position_range (t lo hi : Q) (n : Z) :
  lo <= hi -> lo <= t <= hi -> (1 <= n)%Z ->
  0 <= (t - lo) / (hi - lo + eps) * inject_Z (n - 1) <= inject_Z (n - 1).
Proof.
  intros Hw [Ht0 Ht1] Hn.
  assert (Hm : 0 <= inject_Z (n - 1)).
  { change 0 with (inject_Z 0). rewrite <- Zle_Qle. lia. }
  assert (Hd : 0 < hi - lo + eps) by (unfold eps; lra).
  assert (Hf0 : 0 <= (t - lo) / (hi - lo + eps)) by (apply Qle_shift_div_l; lra).
  assert (Hf1 : (t - lo) / (hi - lo + eps) <= 1)
    by (apply Qle_shift_div_r; unfold eps in *; lra).
  set (f := (t - lo) / (hi - lo + eps)) in *. set (m := inject_Z (n - 1)) in *.
  split; nra.
Qed.

Lemma scaled_position_monotone (t t' lo hi : Q) (n : Z) :
  lo <= hi -> t <= t' -> (1 <= n)%Z ->
  (t - lo) / (hi - lo + eps) * inject_Z (n - 1)
  <= (t' - lo) / (hi - lo + eps) * inject_Z (n - 1).
Proof.
  intros Hw Ht Hn.
  assert (Hm : 0 <= inject_Z (n - 1)).
  { change 0 with (inject_Z 0). rewrite <- Zle_Qle. lia. }
  assert (Hd : 0 < hi - lo + eps) by (unfold eps; lra).
  assert (Hi : 0 <= / (hi - lo + eps)) by (apply Qinv_le_0_compat; lra).
  unfold Qdiv.
  set (i := / (hi - lo + eps)) in *. set (m := inject_Z (n - 1)) in *.
  assert (K : (t - lo) * i <= (t' - lo) * i) by nra.
  nra.
Qed.

(** The projector maps the world window onto the canvas and keeps the
    order of the coordinates inside it: for a window that is not inverted
    and image dimensions from 1 to 2^31, a point inside the window gets a
    pixel inside the canvas, so the cast to [np.int32] is exact there,
    and of two points inside the window the one further right (or further
    along y) never gets the smaller column (or row).  Nothing is said
    about points outside the window, whose scaled position may leave the
    range of [np.int32]. *)
Theorem project_window_to_canvas (b : Bounds) (width height : Z) (s : Splat) :
  (1 <= width <= 2147483648)%Z -> (1 <= height <= 2147483648)%Z ->
  x_min b <= x_max b -> y_min b <= y_max b ->
  (x_min b <= pt_x s <= x_max b ->
   (0 <= px (project b width height s) <= width - 1)%Z /\
   (- 2147483648 <= px (project b width height s) <= 2147483647)%Z) /\
  (y_min b <= pt_y s <= y_max b ->
   (0 <= py (project b width height s) <= height - 1)%Z /\
   (- 2147483648 <= py (project b width height s) <= 2147483647)%Z) /\
  (forall s', x_min b <= pt_x s <= x_max b -> x_min b <= pt_x s' <= x_max b ->
              pt_x s <= pt_x s' ->
              (px (project b width height s) <= px (project b width height s'))%Z /\
              (- 2147483648 <= px (project b width height s'))%Z /\
              (px (project b width height s') <= 2147483647)%Z) /\
  (forall s', y_min b <= pt_y s <= y_max b -> y_min b <= pt_y s' <= y_max b ->
              pt_y s <= pt_y s' ->
              (py (project b width height s) <= py (project b width height s'))%Z /\
              (- 2147483648 <= py (project b width height s'))%Z /\
              (py (project b width height s') <= 2147483647)%Z).
Proof.
  intros Hw Hh Hx Hy.
  assert (Px : forall t, x_min b <= pt_x t <= x_max b ->
                 (0 <= px (project b width height t) <= width - 1)%Z).
  { intros t Hin. unfold project; simpl.
    pose proof (scaled_position_range (pt_x t) (x_min b) (x_max b) width Hx Hin
                  (proj1 Hw)) as [R0 R1].
    rewrite astype_int_floor by exact R0. split.
    - apply (Qfloor_resp_le 0 _ R0).
    - apply Z.le_trans with (Qfloor (inject_Z (width - 1))).
      + apply Qfloor_resp_le. exact R1.
      + rewrite Qfloor_Z. lia. }
  assert (Py : forall t, y_min b <= pt_y t <= y_max b ->
                 (0 <= py (project b width height t) <= height - 1)%Z).
  { intros t Hin. unfold project; simpl.
    pose proof (scaled_position_range (pt_y t) (y_min b) (y_max b) height Hy Hin
                  (proj1 Hh)) as [R0 R1].
    rewrite astype_int_floor by exact R0. split.
    - apply (Qfloor_resp_le 0 _ R0).
    - apply Z.le_trans with (Qfloor (inject_Z (height - 1))).
      + apply Qfloor_resp_le. exact R1.
      + rewrite Qfloor_Z. lia. }
  split; [| split; [| split]].
  - intro Hin. pose proof (Px s Hin). lia.
  - intro Hin. pose proof (Py s Hin). lia.
  - intros s' Hin Hin' Hs.
    pose proof (Px s Hin) as B. pose proof (Px s' Hin') as B'.
    assert (M : (px (project b width height s) <= px (project b width height s'))%Z).
    { unfold project; simpl. apply astype_int_monotone.
      apply scaled_position_monotone; [exact Hx | exact Hs | exact (proj1 Hw)]. }
    lia.
  - intros s' Hin Hin' Hs.
    pose proof (Py s Hin) as B. pose proof (Py s' Hin') as B'.
    assert (M : (py (project b width height s) <= py (project b width height s'))%Z).
    { unfold project; simpl. apply astype_int_monotone.
      apply scaled_position_monotone; [exact Hy | exact Hs | exact (proj1 Hh)]. }
    lia.
Qed.

(** The scale from world units to pixels is not negative for a width of
    at least 1, and a larger world radius never gives a smaller pixel
    radius. *)
Theorem pixel_radius_monotone (xs ys : list Q) (width height : Z) (r r' : Q) :
  (1 <= width)%Z -> (0 < height)%Z -> r <= r' ->
  0 <= px_per_unit (frame xs ys width height) width /\
  (pixel_radius r (px_per_unit (frame xs ys width height) width)
   <= pixel_radius r' (px_per_unit (frame xs ys width height) width))%Z.
Proof.
  intros Hw Hh Hr.
  destruct (guarded_divisors xs ys width height) as (_ & Hd & _); [lia | exact Hh |].
  assert (Hp : 0 <= px_per_unit (frame xs ys width height) width).
  { unfold px_per_unit. apply Qle_shift_div_l; [unfold eps in *; lra |].
    rewrite Qmult_0_l. change (inject_Z 0 <= inject_Z (width - 1)).
    rewrite <- Zle_Qle. lia. }
  split; [exact Hp |].
  unfold pixel_radius. apply astype_int_monotone. apply clip_monotone.
  set (p := px_per_unit (frame xs ys width height) width) in *. nra.
Qed.

Lemma project_window_to_canvas_witness :
  (1 <= 100 <= 2147483648)%Z /\
  x_min window10 <= x_max window10 /\ y_min window10 <= y_max window10 /\
  (x_min window10 <= pt_x (decode numpy_model vivid_vertex) <= x_max window10 ->
   (0 <= px (project window10 100 100 (decode numpy_model vivid_vertex)) <= 100 - 1)%Z /\
   (- 2147483648 <= px (project window10 100 100 (decode numpy_model vivid_vertex))
    <= 2147483647)%Z) /\
  (px (project window10 100 100 (decode numpy_model vivid_vertex))
   <= px (project window10 100 100 (decode numpy_model faint_vertex)))%Z.
Proof.
  assert (Hx : x_min window10 <= x_max window10) by (simpl; lra).
  assert (Hy : y_min window10 <= y_max window10) by (simpl; lra).
  pose proof (project_window_to_canvas window10 100 100 (decode numpy_model vivid_vertex)
                ltac:(lia) ltac:(lia) Hx Hy) as (H1 & _ & H3 & _).
  split; [lia |]. split; [exact Hx |]. split; [exact Hy |].
  split; [exact H1 |].
  destruct (H3 (decode numpy_model faint_vertex)) as [M _];
    [try split; vm_compute; discriminate .. | exact M].
Defined.

Lemma pixel_radius_monotone_witness :
  (1 <= 100)%Z /\ (0 < 100)%Z /\ 1 <= 2 /\
  (pixel_radius 1 (px_per_unit (frame tiny_x tiny_y 100 100) 100)
   <= pixel_radius 2 (px_per_unit (frame tiny_x tiny_y 100 100) 100))%Z.
Proof.
  split; [lia |]. split; [lia |]. split; [lra |].
  apply (pixel_radius_monotone tiny_x tiny_y 100 100 1 2 ltac:(lia) ltac:(lia) ltac:(lra)).
Defined.

(** ** Rotation about the vertical axis *)

Lemma inject_Z_length_cons {A : Type} (a : A) (l : list A) :
  inject_Z (Z.of_nat (length (a :: l))) == inject_Z (Z.of_nat (length l)) + 1.
Proof.
  simpl length. rewrite Nat2Z.inj_succ. unfold Z.succ.
  rewrite inject_Z_plus. reflexivity.
Qed.

Lemma inject_Z_length_pos {A : Type} (l : list A) :
  l <> [] -> 0 < inject_Z (Z.of_nat (length l)).
Proof.
  intro H. change 0 with (inject_Z 0). rewrite <- Zlt_Qlt.
  destruct l; [contradiction | simpl length; lia].
Qed.

Lemma rotated_sums (cos_a sin_a cx cy cz : Q) (l : list Splat) :
  Qsum (map pt_x (map (rotate_point cos_a sin_a (cx, cy, cz)) l)) ==
    (Qsum (map pt_x l) - inject_Z (Z.of_nat (length l)) * cx) * cos_a +
    (Qsum (map pt_z l) - inject_Z (Z.of_nat (length l)) * cz) * sin_a +
    inject_Z (Z.of_nat (length l)) * cx /\
  Qsum (map pt_y (map (rotate_point cos_a sin_a (cx, cy, cz)) l)) == Qsum (map pt_y l) /\
  Qsum (map pt_z (map (rotate_point cos_a sin_a (cx, cy, cz)) l)) ==
    - (Qsum (map pt_x l) - inject_Z (Z.of_nat (length l)) * cx) * sin_a +
    (Qsum (map pt_z l) - inject_Z (Z.of_nat (length l)) * cz) * cos_a +
    inject_Z (Z.of_nat (length l)) * cz.
Proof.
  induction l as [| s l (IHx & IHy & IHz)].
  - simpl. repeat split; ring.
  - pose proof (inject_Z_length_cons s l) as En.
    cbn [map Qsum fold_right]. fold (Qsum (map pt_x l)) (Qsum (map pt_y l)) (Qsum (map pt_z l)).
    fold (Qsum (map pt_x (map (rotate_point cos_a sin_a (cx, cy, cz)) l))).
    fold (Qsum (map pt_y (map (rotate_point cos_a sin_a (cx, cy, cz)) l))).
    fold (Qsum (map pt_z (map (rotate_point cos_a sin_a (cx, cy, cz)) l))).
    rewrite IHx, IHy, IHz, En.
    unfold rotate_point, pt_x, pt_y, pt_z; simpl.
    repeat split; ring.
Qed.

Lemma mean_times_length (l : list Q) :
  l <> [] -> Qsum l - inject_Z (Z.of_nat (length l)) * mean l == 0.
Proof.
  intro H. pose proof (inject_Z_length_pos l H) as Hn. unfold mean. field. lra.
Qed.

Lemma rotate_point_keeps (cos_a sin_a ax ay az : Q) (l : list Splat) :
  Forall2 (fun s s' =>
             pt_y s' == pt_y s /\ colors s' = colors s /\ opacity s' = opacity s /\
             splat_radius s' = splat_radius s /\
             (cos_a * cos_a + sin_a * sin_a == 1 ->
              (pt_x s' - ax) * (pt_x s' - ax) + (pt_z s' - az) * (pt_z s' - az) ==
              (pt_x s - ax) * (pt_x s - ax) + (pt_z s - az) * (pt_z s - az)))
          l (map (rotate_point cos_a sin_a (ax, ay, az)) l).
Proof.
  induction l as [| s l IH]; simpl; constructor; [| exact IH].
  unfold rotate_point, pt_x, pt_y, pt_z; simpl.
  split; [ring |]. repeat (split; [reflexivity |]).
  intro Hcs.
  transitivity ((cos_a * cos_a + sin_a * sin_a) *
                ((fst (fst (pts s)) - ax) * (fst (fst (pts s)) - ax) +
                 (snd (pts s) - az) * (snd (pts s) - az))); [ring |].
  rewrite Hcs. ring.
Qed.

Lemma unrotated_keeps (cos_a sin_a ax az : Q) (l : list Splat) :
  Forall2 (fun s s' =>
             pt_y s' == pt_y s /\ colors s' = colors s /\ opacity s' = opacity s /\
             splat_radius s' = splat_radius s /\
             (cos_a * cos_a + sin_a * sin_a == 1 ->
              (pt_x s' - ax) * (pt_x s' - ax) + (pt_z s' - az) * (pt_z s' - az) ==
              (pt_x s - ax) * (pt_x s - ax) + (pt_z s - az) * (pt_z s - az)))
          l l.
Proof.
  induction l as [| s l IH]; constructor; [| exact IH].
  repeat split; reflexivity.
Qed.

(** The rotation of lines 52-62 turns the points about the vertical axis
    through their centroid, whatever values [np.cos] and [np.sin] return:
    it keeps the number of splats, their height, colour, opacity and
    radius, and it leaves the centroid where it was.  When the two values
    satisfy [cos^2 + sin^2 = 1], it also keeps every point's horizontal
    distance to that axis. *)
Theorem rotate_about_centroid (np : NumPy) (angle_deg : Q) (l : list Splat) :
  l <> [] ->
  let cx := mean (map pt_x l) in
  let cz := mean (map pt_z l) in
  let cos_a := np_cos np (np_radians np angle_deg) in
  let sin_a := np_sin np (np_radians np angle_deg) in
  Forall2 (fun s s' =>
             pt_y s' == pt_y s /\ colors s' = colors s /\ opacity s' = opacity s /\
             splat_radius s' = splat_radius s /\
             (cos_a * cos_a + sin_a * sin_a == 1 ->
              (pt_x s' - cx) * (pt_x s' - cx) + (pt_z s' - cz) * (pt_z s' - cz) ==
              (pt_x s - cx) * (pt_x s - cx) + (pt_z s - cz) * (pt_z s - cz)))
          l (rotate np angle_deg l) /\
  mean (map pt_x (rotate np angle_deg l)) == cx /\
  mean (map pt_y (rotate np angle_deg l)) == mean (map pt_y l) /\
  mean (map pt_z (rotate np angle_deg l)) == cz.
Proof.
  intros Hne cx cz cos_a sin_a. unfold rotate.
  destruct (Qeq_bool angle_deg 0).
  - split; [apply unrotated_keeps | repeat split; reflexivity].
  - fold cos_a sin_a cx cz. set (cy := mean (map pt_y l)).
    split; [apply rotate_point_keeps |].
    destruct (rotated_sums cos_a sin_a cx cy cz l) as (Sx & Sy & Sz).
    pose proof (inject_Z_length_pos l Hne) as Hn.
    assert (Hxs : map pt_x l <> []) by (destruct l; [contradiction | discriminate]).
    assert (Hzs : map pt_z l <> []) by (destruct l; [contradiction | discriminate]).
    pose proof (mean_times_length (map pt_x l) Hxs) as Ex.
    pose proof (mean_times_length (map pt_z l) Hzs) as Ez.
    rewrite length_map in Ex, Ez. fold cx in Ex. fold cz in Ez.
    unfold mean at 1 2 3. rewrite !length_map.
    rewrite Sx, Sy, Sz, Ex, Ez.
    repeat split.
    + field. lra.
    + unfold cy, mean. rewrite length_map. reflexivity.
    + field. lra.
Qed.

Lemma rotate_about_centroid_witness :
  map (decode numpy_model) [vertex0; faint_vertex] <> [] /\
  mean (map pt_x (rotate numpy_model 90 (map (decode numpy_model) [vertex0; faint_vertex])))
  == mean (map pt_x (map (decode numpy_model) [vertex0; faint_vertex])).
Proof.
  assert (H : map (decode numpy_model) [vertex0; faint_vertex] <> []) by discriminate.
  split; [exact H |].
  apply (rotate_about_centroid numpy_model 90 _ H).
Defined.

(** ** Robust bounds *)

Lemma percentile_inside_data (a : list Q) (q : Q) :
  a <> [] -> 0 <= q -> q <= 100 ->
  (exists lo, In lo a /\ lo <= percentile a q) /\
  (exists hi, In hi a /\ percentile a q <= hi).
Proof.
  intros Ha Hq0 Hq1.
  pose proof (percentile_between a q Ha Hq0 Hq1) as (Hlo & Hhi & Hb1 & Hb2).
  cbv zeta in *.
  assert (Hlen : length (np_sort a) = length a) by apply np_sort_length.
  split.
  - eexists. split; [| exact Hb1].
    apply (Permutation_in _ (np_sort_Permutation a)). apply nth_In. lia.
  - eexists. split; [| exact Hb2].
    apply (Permutation_in _ (np_sort_Permutation a)). apply nth_In. lia.
Qed.

(** The robust bounds of lines 66-76 stay inside the data: for a
    non-empty array each bound lies between two of its values, the lower
    bound is at most the upper one, and the 10 percent padding only
    widens the window, along x and along y, by a tenth of the span on
    either side, to 1.2 times its span. *)
Theorem scene_bounds_within_data (xs ys : list Q) :
  xs <> [] -> ys <> [] ->
  x_min (scene_bounds xs ys) <= x_max (scene_bounds xs ys) /\
  y_min (scene_bounds xs ys) <= y_max (scene_bounds xs ys) /\
  (exists a, In a xs /\ a <= x_min (scene_bounds xs ys)) /\
  (exists a, In a xs /\ x_max (scene_bounds xs ys) <= a) /\
  (exists a, In a ys /\ a <= y_min (scene_bounds xs ys)) /\
  (exists a, In a ys /\ y_max (scene_bounds xs ys) <= a) /\
  x_min (padding (scene_bounds xs ys)) <= x_min (scene_bounds xs ys) /\
  x_max (scene_bounds xs ys) <= x_max (padding (scene_bounds xs ys)) /\
  x_max (padding (scene_bounds xs ys)) - x_min (padding (scene_bounds xs ys)) ==
    (12 # 10) * (x_max (scene_bounds xs ys) - x_min (scene_bounds xs ys)) /\
  y_min (padding (scene_bounds xs ys)) <= y_min (scene_bounds xs ys) /\
  y_max (scene_bounds xs ys) <= y_max (padding (scene_bounds xs ys)) /\
  y_max (padding (scene_bounds xs ys)) - y_min (padding (scene_bounds xs ys)) ==
    (12 # 10) * (y_max (scene_bounds xs ys) - y_min (scene_bounds xs ys)) /\
  x_min (scene_bounds xs ys) - x_min (padding (scene_bounds xs ys)) ==
    (1 # 10) * (x_max (scene_bounds xs ys) - x_min (scene_bounds xs ys)) /\
  x_max (padding (scene_bounds xs ys)) - x_max (scene_bounds xs ys) ==
    (1 # 10) * (x_max (scene_bounds xs ys) - x_min (scene_bounds xs ys)) /\
  y_min (scene_bounds xs ys) - y_min (padding (scene_bounds xs ys)) ==
    (1 # 10) * (y_max (scene_bounds xs ys) - y_min (scene_bounds xs ys)) /\
  y_max (padding (scene_bounds xs ys)) - y_max (scene_bounds xs ys) ==
    (1 # 10) * (y_max (scene_bounds xs ys) - y_min (scene_bounds xs ys)).
Proof.
  intros Hx Hy.
  assert (Hox : x_min (scene_bounds xs ys) <= x_max (scene_bounds xs ys))
    by (apply percentile_monotone; lra).
  assert (Hoy : y_min (scene_bounds xs ys) <= y_max (scene_bounds xs ys))
    by (apply percentile_monotone; lra).
  split; [exact Hox |]. split; [exact Hoy |].
  split; [apply (percentile_inside_data xs (1#2) Hx); lra |].
  split; [apply (percentile_inside_data xs (199#2) Hx); lra |].
  split; [apply (percentile_inside_data ys (1#2) Hy); lra |].
  split; [apply (percentile_inside_data ys (199#2) Hy); lra |].
  generalize dependent (scene_bounds xs ys). intros b Hbx Hby.
  unfold padding; simpl. repeat split; lra.
Qed.

Lemma scene_bounds_within_data_witness :
  tiny_x <> [] /\ tiny_y <> [] /\
  x_min (scene_bounds tiny_x tiny_y) <= x_max (scene_bounds tiny_x tiny_y) /\
  y_min (scene_bounds tiny_x tiny_y) <= y_max (scene_bounds tiny_x tiny_y).
Proof.
  assert (Hx : tiny_x <> []) by discriminate.
  assert (Hy : tiny_y <> []) by discriminate.
  split; [exact Hx |]. split; [exact Hy |].
  pose proof (scene_bounds_within_data tiny_x tiny_y Hx Hy) as (H1 & H2 & _).
  split; [exact H1 | exact H2].
Defined.

(** ** What reaches the compositor *)

(** Every splat that the compositor visits comes from an input vertex
    whose decoded opacity is above 0.02; it carries that vertex's decoded
    colour and opacity, a pixel radius between 1 and 12 and a centre at
    most 12 pixels outside the canvas.  This holds for any [np.argsort],
    even one that breaks its contract; for one that meets it, no
    surviving splat with such a centre is lost or visited twice. *)
Theorem compositor_input (np : NumPy) (v : list Vertex) (width height : Z)
    (angle_deg : Q) :
  (forall x, 0 <= np_exp np x) ->
  (forall q, In q (sorted_splats np v width height angle_deg) ->
     (exists u, In u v /\
                p_opacity q = opacity (decode np u) /\
                p_colors q = colors (decode np u)) /\
     2 # 100 < p_opacity q <= 1 /\
     (1 <= pixel_radii q <= 12)%Z /\
     (-12 <= px q < width + 12)%Z /\ (-12 <= py q < height + 12)%Z) /\
  (argsort_contract (np_argsort np) ->
   let splats := rotate np angle_deg (filter_low_opacity (map (decode np) v)) in
   let b := frame (map pt_x splats) (map pt_y splats) width height in
   Permutation (sorted_splats np v width height angle_deg)
               (filter (valid width height) (map (project b width height) splats))).
Proof.
  intro Hexp. split.
  - intros q Hq.
    assert (Hv : valid width height q = true).
    { unfold sorted_splats, depth_sort in Hq. apply take_order_In in Hq.
      apply filter_In in Hq. apply Hq. }
    apply sorted_splats_from_projection in Hq. destruct Hq as (s & Hs & ->).
    apply rotate_keeps_attributes in Hs. destruct Hs as (s0 & Hin & Eo & Ec & Er).
    apply filter_In in Hin. destruct Hin as [Hin Hm].
    apply in_map_iff in Hin. destruct Hin as (u & <- & Hu).
    apply mask_true in Hm.
    split; [exists u; unfold project; simpl; rewrite Eo, Ec; repeat split; assumption |].
    split.
    + unfold project; simpl. rewrite Eo. split; [exact Hm |].
      apply (decode_opacity_range np _ Hexp).
    + split; [unfold project; simpl; apply pixel_radius_range |].
      unfold valid, max_r in Hv.
      repeat (apply andb_true_iff in Hv; destruct Hv as [Hv ?]).
      apply Z.leb_le in Hv.
      repeat match goal with
             | H : (_ <? _)%Z = true |- _ => apply Z.ltb_lt in H
             | H : (_ <=? _)%Z = true |- _ => apply Z.leb_le in H
             end.
      lia.
  - intros Hc splats b. unfold sorted_splats. fold splats. fold b.
    apply (depth_sort_ascending np _ (Hc _)).
Qed.

Lemma compositor_input_witness :
  (forall x, 0 <= np_exp numpy_model x) /\
  (1 <= pixel_radii splat0 <= 12)%Z.
Proof.
  split; [exact exp_model_nonneg |].
  apply (compositor_input numpy_model [vertex0] 1 1 0 exp_model_nonneg).
  vm_compute. left. reflexivity.
Defined.

(** A pixel that lies more than 12 pixels, along x or along y, from the
    centre of every splat the compositor visits is left at the background
    colour (0, 0, 0) in the image handed to the writer. *)
Theorem background_beyond_reach (np : NumPy) (v : list Vertex) (width height : Z)
    (angle_deg : Q) (im : Image) (y x : Z) :
  render_splat np v width height angle_deg = inr im ->
  Forall (fun q => (12 < Z.abs (y - py q) \/ 12 < Z.abs (x - px q))%Z)
         (sorted_splats np v width height angle_deg) ->
  forall ch, im_data im y x ch = 0%Z.
Proof.
  intros Hr Hfar ch. apply render_splat_inr in Hr. subst im. simpl.
  destruct (composite_outside_boxes np width height
              (sorted_splats np v width height angle_deg) y x) with (cv := zeros)
    as [I _].
  - apply Forall_forall. intros q Hq.
    rewrite Forall_forall in Hfar. specialize (Hfar q Hq).
    assert (Hrad : (pixel_radii q <= 12)%Z).
    { apply sorted_splats_from_projection in Hq. destruct Hq as (s & _ & ->).
      unfold project; simpl. apply pixel_radius_range. }
    destruct (in_box (bounding_box width height q) y x) eqn:E; [| reflexivity].
    apply in_box_inside in E. lia.
  - rewrite I. reflexivity.
Qed.

Lemma background_beyond_reach_witness :
  (exists im, render_splat numpy_model [vertex0] 20 20 0 = inr im /\
              im_data im 15 15 0%nat = 0%Z) /\
  Forall (fun q => (12 < Z.abs (15 - py q) \/ 12 < Z.abs (15 - px q))%Z)
         (sorted_splats numpy_model [vertex0] 20 20 0).
Proof.
  assert (Hf : Forall (fun q => (12 < Z.abs (15 - py q) \/ 12 < Z.abs (15 - px q))%Z)
                      (sorted_splats numpy_model [vertex0] 20 20 0)).
  { vm_compute. constructor; [| constructor]. left. reflexivity. }
  split; [| exact Hf].
  eexists. split; [reflexivity |].
  apply (background_beyond_reach numpy_model [vertex0] 20 20 0 _ 15 15 eq_refl Hf).
Defined.

(** ** Command line *)

Lemma argv_at_app (argv extra : list String.string) (i : nat) :
  (i < length argv)%nat -> argv_at (argv ++ extra) i = argv_at argv i.
Proof. intro H. unfold argv_at. apply app_nth1. exact H. Qed.

(** The command line of lines 173-184.  With fewer than two arguments
    after the script name the script prints the usage line and exits with
    status 1 without parsing anything.  With exactly the two paths it
    renders at 1024 x 768 and angle 0.  Whatever follows the fifth
    argument is ignored. *)
Theorem main_arguments (py_int : String.string -> option Z)
    (py_float : String.string -> option Q) (argv : list String.string) :
  ((length argv < 3)%nat -> main py_int py_float argv = UsageExit1) /\
  (length argv = 3%nat ->
   main py_int py_float argv =
   CallRender (argv_at argv 1) (argv_at argv 2) 1024 768 0) /\
  ((3 <= length argv)%nat -> main py_int py_float argv <> UsageExit1) /\
  ((6 <= length argv)%nat ->
   forall extra, main py_int py_float (argv ++ extra) = main py_int py_float argv).
Proof.
  split; [| split; [| split]].
  - intro H. unfold main. apply Nat.ltb_lt in H. rewrite H. reflexivity.
  - intro H. unfold main. rewrite H. reflexivity.
  - intro H. unfold main.
    assert (E : (length argv <? 3)%nat = false) by (apply Nat.ltb_ge; exact H).
    rewrite E.
    destruct (if (3 <? length argv)%nat then _ else _); [| discriminate].
    destruct (if (4 <? length argv)%nat then _ else _); [| discriminate].
    destruct (if (5 <? length argv)%nat then _ else _); discriminate.
  - intros H extra. unfold main. rewrite length_app.
    assert (E1 : (length argv <? 3)%nat = false) by (apply Nat.ltb_ge; lia).
    assert (E2 : (length argv + length extra <? 3)%nat = false) by (apply Nat.ltb_ge; lia).
    assert (F : forall k, (k < 6)%nat ->
                  (k <? length argv + length extra)%nat = (k <? length argv)%nat).
    { intros k Hk. transitivity true; [| symmetry]; apply Nat.ltb_lt; lia. }
    rewrite E1, E2, (F 3%nat), (F 4%nat), (F 5%nat) by lia.
    rewrite !argv_at_app by lia. reflexivity.
Qed.

(** ** The window stays centred *)

(** Padding and the aspect fit are symmetric: for a non-empty scene and
    a positive width and height, the final world window has the same
    midpoint, along x and along y, as the robust bounds it was computed
    from. *)
Theorem frame_keeps_center (xs ys : list Q) (width height : Z) :
  xs <> [] -> ys <> [] -> (0 < width)%Z -> (0 < height)%Z ->
  x_min (frame xs ys width height) + x_max (frame xs ys width height) ==
    x_min (scene_bounds xs ys) + x_max (scene_bounds xs ys) /\
  y_min (frame xs ys width height) + y_max (frame xs ys width height) ==
    y_min (scene_bounds xs ys) + y_max (scene_bounds xs ys).
Proof.
  intros _ _ _ _.
  unfold frame. generalize (scene_bounds xs ys). intro b.
  generalize (inject_Z width / inject_Z height). intro a.
  unfold preserve_aspect.
  destruct (Qgtb _ a); unfold padding; simpl; halves; split; ring.
Qed.

Lemma frame_keeps_center_witness :
  tiny_x <> [] /\ tiny_y <> [] /\ (0 < 100)%Z /\
  x_min (frame tiny_x tiny_y 100 100) + x_max (frame tiny_x tiny_y 100 100) ==
    x_min (scene_bounds tiny_x tiny_y) + x_max (scene_bounds tiny_x tiny_y) /\
  y_min (frame tiny_x tiny_y 100 100) + y_max (frame tiny_x tiny_y 100 100) ==
    y_min (scene_bounds tiny_x tiny_y) + y_max (scene_bounds tiny_x tiny_y).
Proof.
  assert (Hx : tiny_x <> []) by discriminate.
  assert (Hy : tiny_y <> []) by discriminate.
  split; [exact Hx |]. split; [exact Hy |]. split; [lia |].
  exact (frame_keeps_center tiny_x tiny_y 100 100 Hx Hy ltac:(lia) ltac:(lia)).
Defined.

(** ** Early exit along a whole run *)

(** As long as no splat of a run finds its centre pixel above 0.95 when
    its turn comes, the compositor with the early-exit test and the one
    without it produce the same canvas. *)
Theorem early_exit_never_taken (np : NumPy) (width height : Z) (l : list Projected)
    (cv : Canvas) :
  (forall k s, nth_error l k = Some s ->
               center_opaque width height (composite np width height (firstn k l) cv) s
               = false) ->
  composite np width height l cv = composite_no_early_exit np width height l cv.
Proof.
  revert cv. unfold composite, composite_no_early_exit.
  induction l as [| s l IH]; intros cv H; simpl.
  - reflexivity.
  - assert (E : splat_step np width height cv s =
                splat_step_no_early_exit np width height cv s).
    { pose proof (H 0%nat s eq_refl) as H0. simpl in H0.
      unfold splat_step, splat_step_no_early_exit. rewrite H0. reflexivity. }
    rewrite <- E. apply IH. intros k s' Hk. apply (H (S k) s' Hk).
Qed.

Lemma early_exit_never_taken_witness :
  (forall k s, nth_error [splat_red] k = Some s ->
               center_opaque 1 1 (composite numpy_model 1 1 (firstn k [splat_red]) zeros) s
               = false) /\
  composite numpy_model 1 1 [splat_red] zeros =
  composite_no_early_exit numpy_model 1 1 [splat_red] zeros.
Proof.
  assert (H : forall k s, nth_error [splat_red] k = Some s ->
                center_opaque 1 1 (composite numpy_model 1 1 (firstn k [splat_red]) zeros) s
                = false).
  { intros k s Hk. destruct k as [| k].
    - injection Hk as <-. reflexivity.
    - destruct k; discriminate Hk. }
  split; [exact H |].
  apply (early_exit_never_taken numpy_model 1 1 [splat_red] zeros H).
Defined.

(** ** Splats with disjoint boxes *)

Lemma arange_In (lo hi k : Z) : In k (arange lo hi) -> (lo <= k < hi)%Z.
Proof.
  unfold arange. intro H. apply in_map_iff in H.
  destruct H as (n & <- & Hn). apply in_seq in Hn. lia.
Qed.

Lemma existsb_agree {A : Type} (f g : A -> bool) (l : list A) :
  (forall a, In a l -> f a = g a) -> existsb f l = existsb g l.
Proof.
  induction l as [| a l IH]; intro H; simpl.
  - reflexivity.
  - rewrite (H a (or_introl eq_refl)). rewrite IH; [reflexivity |].
    intros b Hb. apply H. right. exact Hb.
Qed.

Lemma in_box_intro (b : Box) (y x : Z) :
  (y0 b <= y < y1 b)%Z -> (x0 b <= x < x1 b)%Z -> in_box b y x = true.
Proof.
  intros Hy Hx. unfold in_box.
  repeat (apply andb_true_iff; split);
    try (apply Z.leb_le; lia); apply Z.ltb_lt; lia.
Qed.

Lemma center_opaque_agree (width height : Z) (cv cv' : Canvas) (s : Projected) :
  box_empty (bounding_box width height s) = false ->
  agree_on_box (bounding_box width height s) cv cv' ->
  center_opaque width height cv s = center_opaque width height cv' s.
Proof.
  intros Hne Hag. unfold center_opaque.
  destruct ((0 <=? py s)%Z && (py s <? height)%Z && (0 <=? px s)%Z && (px s <? width)%Z)
    eqn:E; [| reflexivity].
  simpl.
  repeat (apply andb_true_iff in E; destruct E as [E ?]).
  apply Z.leb_le in E.
  repeat match goal with
         | H : (_ <? _)%Z = true |- _ => apply Z.ltb_lt in H
         | H : (_ <=? _)%Z = true |- _ => apply Z.leb_le in H
         end.
  unfold box_empty, bounding_box in Hne; simpl in Hne.
  apply orb_false_iff in Hne. destruct Hne as [Hy Hx].
  apply Z.leb_gt in Hy. apply Z.leb_gt in Hx.
  destruct (Hag (py s) (px s)) as [Ha _].
  - apply in_box_intro; unfold bounding_box; simpl; lia.
  - rewrite Ha. reflexivity.
Qed.

Lemma effective_agree (np : NumPy) (cv cv' : Canvas) (s : Projected) (y x : Z) :
  alpha_buf cv y x = alpha_buf cv' y x ->
  effective np cv s y x = effective np cv' s y x /\
  update_mask np cv s y x = update_mask np cv' s y x.
Proof.
  intro H. unfold update_mask, effective. rewrite H. split; reflexivity.
Qed.

Lemma mask_any_agree (np : NumPy) (cv cv' : Canvas) (s : Projected) (b : Box) :
  agree_on_box b cv cv' -> mask_any np cv s b = mask_any np cv' s b.
Proof.
  intro Hag. unfold mask_any.
  apply existsb_agree. intros y Hy. apply existsb_agree. intros x Hx.
  apply arange_In in Hy. apply arange_In in Hx.
  destruct (Hag y x (in_box_intro b y x Hy Hx)) as [Ha _].
  apply (effective_agree np cv cv' s y x Ha).
Qed.

(** An iteration reads the canvas only inside the splat's box. *)
Lemma splat_step_reads_its_box (np : NumPy) (width height : Z) (cv cv' : Canvas)
    (s : Projected) :
  agree_on_box (bounding_box width height s) cv cv' ->
  agree_on_box (bounding_box width height s)
               (splat_step np width height cv s) (splat_step np width height cv' s).
Proof.
  intros Hag y x Hin. unfold splat_step, full_update.
  destruct (box_empty (bounding_box width height s)) eqn:Ee; [apply Hag; exact Hin |].
  rewrite (center_opaque_agree width height cv cv' s Ee Hag).
  destruct (center_opaque width height cv' s); [apply Hag; exact Hin |].
  rewrite (mask_any_agree np cv cv' s _ Hag).
  destruct (mask_any np cv' s (bounding_box width height s)); simpl;
    [| apply Hag; exact Hin].
  rewrite Hin. destruct (Hag y x Hin) as [Ha Hi].
  destruct (effective_agree np cv cv' s y x Ha) as [Ee' Em].
  rewrite Ee', Em, Ha. split; [reflexivity |].
  intro ch. rewrite (Hi ch). reflexivity.
Qed.

(** Two splats whose bounding boxes share no pixel can be composited in
    either order: every cell of both accumulators ends with the same
    value.  An iteration reads and writes the canvas only inside the
    splat's own box. *)
Theorem disjoint_splats_commute (np : NumPy) (width height : Z) (cv : Canvas)
    (s1 s2 : Projected) :
  (forall y x, in_box (bounding_box width height s1) y x = true ->
               in_box (bounding_box width height s2) y x = false) ->
  forall y x,
    alpha_buf (composite np width height [s1; s2] cv) y x =
    alpha_buf (composite np width height [s2; s1] cv) y x /\
    forall ch,
      img (composite np width height [s1; s2] cv) y x ch =
      img (composite np width height [s2; s1] cv) y x ch.
Proof.
  intros Hdis y x. unfold composite; simpl.
  assert (Hdis' : forall y x, in_box (bounding_box width height s2) y x = true ->
                              in_box (bounding_box width height s1) y x = false).
  { intros y' x' H2.
    destruct (in_box (bounding_box width height s1) y' x') eqn:E; [| reflexivity].
    rewrite (Hdis y' x' E) in H2. discriminate H2. }
  assert (A1 : agree_on_box (bounding_box width height s1)
                            (splat_step np width height cv s2) cv).
  { intros y' x' H1.
    destruct (splat_step_outside_box np width height cv s2 y' x' (Hdis y' x' H1)) as [I A].
    split; [exact A | exact I]. }
  assert (A2 : agree_on_box (bounding_box width height s2)
                            (splat_step np width height cv s1) cv).
  { intros y' x' H2.
    destruct (splat_step_outside_box np width height cv s1 y' x' (Hdis' y' x' H2)) as [I A].
    split; [exact A | exact I]. }
  destruct (in_box (bounding_box width height s1) y x) eqn:E1.
  - (* inside the first box, outside the second *)
    destruct (splat_step_outside_box np width height
                (splat_step np width height cv s1) s2 y x (Hdis y x E1)) as [I A].
    destruct (splat_step_reads_its_box np width height _ _ s1 A1 y x E1) as [Ra Ri].
    split; [rewrite A, Ra; reflexivity |].
    intro ch. rewrite I, Ri. reflexivity.
  - destruct (splat_step_outside_box np width height
                (splat_step np width height cv s2) s1 y x E1) as [I A].
    destruct (in_box (bounding_box width height s2) y x) eqn:E2.
    + destruct (splat_step_reads_its_box np width height _ _ s2 A2 y x E2) as [Ra Ri].
      split; [rewrite A, Ra; reflexivity |].
      intro ch. rewrite I, Ri. reflexivity.
    + destruct (splat_step_outside_box np width height
                  (splat_step np width height cv s1) s2 y x E2) as [I2 A2'].
      destruct (splat_step_outside_box np width height cv s1 y x E1) as [I1 A1'].
      destruct (splat_step_outside_box np width height cv s2 y x E2) as [I3 A3].
      split; [rewrite A, A2', A1', A3; reflexivity |].
      intro ch. rewrite I, I2, I1, I3. reflexivity.
Qed.

Lemma disjoint_splats_commute_witness :
  (forall y x, in_box (bounding_box 40 40 splat_red) y x = true ->
               in_box (bounding_box 40 40 corner_splat) y x = false) /\
  alpha_buf (composite numpy_model 40 40 [splat_red; corner_splat] zeros) 0 0 =
  alpha_buf (composite numpy_model 40 40 [corner_splat; splat_red] zeros) 0 0.
Proof.
  assert (H : forall y x, in_box (bounding_box 40 40 splat_red) y x = true ->
                          in_box (bounding_box 40 40 corner_splat) y x = false).
  { intros y x H1. apply in_box_inside in H1.
    destruct (in_box (bounding_box 40 40 corner_splat) y x) eqn:E; [| reflexivity].
    apply in_box_inside in E. simpl in H1, E. lia. }
  split; [exact H |].
  apply (disjoint_splats_commute numpy_model 40 40 zeros splat_red corner_splat H 0%Z 0%Z).
Defined.

(** ** Depth order without ties *)

Lemma sorted_Permutation_unique (l1 l2 : list Projected) :
  Permutation l1 l2 ->
  StronglySorted (fun a b => z a <= z b) l1 ->
  StronglySorted (fun a b => z a <= z b) l2 ->
  (forall a b, In a l1 -> In b l1 -> z a == z b -> a = b) ->
  l1 = l2.
Proof.
  revert l2. induction l1 as [| a l1 IH]; intros l2 Hp H1 H2 Hd.
  - apply Permutation_nil in Hp. symmetry. exact Hp.
  - destruct l2 as [| b l2].
    + apply Permutation_sym, Permutation_nil in Hp. discriminate Hp.
    + apply StronglySorted_inv in H1. destruct H1 as [S1 F1].
      apply StronglySorted_inv in H2. destruct H2 as [S2 F2].
      rewrite Forall_forall in F1, F2.
      assert (Hb : In b (a :: l1))
        by (apply (Permutation_in b (Permutation_sym Hp)); left; reflexivity).
      assert (Ha : In a (b :: l2)) by (apply (Permutation_in a Hp); left; reflexivity).
      assert (Lab : z a <= z b).
      { destruct Hb as [<- | Hb]; [apply Qle_refl | apply F1, Hb]. }
      assert (Lba : z b <= z a).
      { destruct Ha as [<- | Ha]; [apply Qle_refl | apply F2, Ha]. }
      assert (E : a = b).
      { apply Hd; [left; reflexivity | exact Hb | apply Qle_antisym; assumption]. }
      subst b. f_equal. apply IH.
      * apply (Permutation_cons_inv Hp).
      * exact S1.
      * exact S2.
      * intros c d Hc Hd'. apply Hd; right; assumption.
Qed.

(** When no two different projected splats have the same depth, the order
    in which the compositor visits them does not depend on the sorting
    algorithm: any two [np.argsort] that meet the contract give the same
    list, which is the only ascending arrangement of the input. *)
Theorem depth_order_unique_without_ties (np np' : NumPy) (l : list Projected) :
  argsort_contract (np_argsort np) -> argsort_contract (np_argsort np') ->
  (forall a b, In a l -> In b l -> z a == z b -> a = b) ->
  depth_sort np l = depth_sort np' l /\
  (forall l', Permutation l' l -> StronglySorted (fun a b => z a <= z b) l' ->
              l' = depth_sort np l).
Proof.
  intros Hc Hc' Hd.
  destruct (depth_sort_ascending np l (Hc (map z l))) as [S P].
  destruct (depth_sort_ascending np' l (Hc' (map z l))) as [S' P'].
  assert (Hd' : forall l', Permutation l' l ->
                  forall a b, In a l' -> In b l' -> z a == z b -> a = b).
  { intros l' Hp a b Ha Hb. apply Hd; apply (Permutation_in _ Hp); assumption. }
  split.
  - apply sorted_Permutation_unique; try assumption.
    + apply perm_trans with l; [exact P | apply Permutation_sym; exact P'].
    + apply (Hd' _ P).
  - intros l' Hp Hs. apply sorted_Permutation_unique; try assumption.
    + apply perm_trans with l; [exact Hp | apply Permutation_sym; exact P].
    + apply (Hd' _ Hp).
Qed.

Lemma depth_order_unique_without_ties_witness :
  argsort_contract (np_argsort numpy_model) /\
  (forall a b, In a [splat_blue; splat_red] -> In b [splat_blue; splat_red] ->
               z a == z b -> a = b) /\
  [splat_red; splat_blue] = depth_sort numpy_model [splat_blue; splat_red].
Proof.
  assert (Hd : forall a b, In a [splat_blue; splat_red] -> In b [splat_blue; splat_red] ->
                           z a == z b -> a = b).
  { intros a b [<- | [<- | []]] [<- | [<- | []]] Hz;
      try reflexivity; simpl in Hz; discriminate Hz. }
  split; [exact argsort_insertion_contract |]. split; [exact Hd |].
  apply (proj2 (depth_order_unique_without_ties numpy_model numpy_model
                  [splat_blue; splat_red]
                  argsort_insertion_contract argsort_insertion_contract Hd)).
  - apply perm_swap.
  - repeat constructor. simpl. discriminate.
Defined.
